(** * Expression trees of the C++ training material

    A shallow embedding of the expression-tree programs of the lessons:

    - [Raw]: the hand-written classes of [block-2b.md] (raw owning
      pointers, [Sum] and [Product] each with their own [evaluate] and
      [print]);
    - [Unique]: [asset/2b-expr-unique.cpp] ([std::unique_ptr] children,
      [TwoOp::evaluate] and [TwoOp::print] final, [operator<<]);
    - [Shared]: [asset/2b-expr-shared.cpp] ([std::shared_ptr] children,
      symbolic [derivative]).

    [double] is the kernel's binary64 floating-point type, so the
    arithmetic of the model is the arithmetic of the program.  An
    exclusive-ownership tree is an inductive tree; a shared-ownership
    tree lives in a heap of immutable objects addressed by pointers, so
    that aliasing is visible.  Dereferencing a null pointer is undefined
    behaviour in C++ and is the outcome [Fault] here.  Functions that
    follow pointers through the heap take a recursion budget; the
    theorems say which budget is enough.  Where C++ leaves the order of
    evaluation of two arguments open and the order shows in the
    addresses allocated, the order is a parameter. *)

From Stdlib Require Import Floats.PrimFloat Floats.FloatOps Floats.SpecFloat.
From Stdlib Require Import ZArith String Ascii.
From stdpp Require Import base tactics option list gmap strings pretty.

(** ** Numbers *)

Abbreviation double := float.

(** ** Outcomes of a call *)

(** A call returns ([Done]), runs into undefined behaviour because it
    dereferences a null or dangling pointer ([Fault]), or exhausts the
    recursion budget the model gives to functions that follow pointers
    through the heap ([Starved]). *)
Inductive outcome (A : Type) : Type :=
| Done (a : A)
| Fault
| Starved.
Arguments Done {A} a.
Arguments Fault {A}.
Arguments Starved {A}.

#[global] Instance outcome_ret : MRet outcome := @Done.
#[global] Instance outcome_bind : MBind outcome := fun A B k m =>
  match m with
  | Done a => k a
  | Fault => Fault
  | Starved => Starved
  end.

(** ** Output streams *)

(** A [std::ostream &] is a reference to a stream object; [sinks] holds
    the characters written so far to every stream. *)
Definition ostream := nat.
Definition cout : ostream := 0%nat.
Abbreviation sinks := (gmap ostream string).

Definition written (w : sinks) (os : ostream) : string := w !!! os.

(** [os << s] for a piece of text [s]. *)
Definition put (os : ostream) (s : string) (w : sinks) : sinks :=
  <[os := written w os +:+ s]> w.

(** [os << c] for a character [c]. *)
Definition put_char (os : ostream) (c : ascii) (w : sinks) : sinks :=
  put os (String c EmptyString) w.

(** ** [os << c] for a [double]

    The digits come from the C++ standard library, not from this
    repository: the stream's formatter is an interface of the model. *)
Class DoubleFormat := format_double : double -> string.

(** The default state of a stream ([%g] with precision 6), as an
    executable instance: six significant digits, rounded to nearest
    (ties to even) on the exact value, fixed notation when the decimal
    exponent is in [-4, 6) and scientific notation otherwise, trailing
    zeros removed.  The sign of a NaN is not represented. *)
Module Printf.
Local Open Scope Z_scope.

Fixpoint strip_zeros_rev (l : list ascii) : list ascii :=
  match l with
  | "0"%char :: l' => strip_zeros_rev l'
  | _ => l
  end.

Definition strip_zeros (s : string) : string :=
  string_of_list_ascii
    (List.rev (strip_zeros_rev (List.rev (list_ascii_of_string s)))).

(** Number of decimal digits of a positive integer, minus one. *)
Fixpoint log10_up (fuel : nat) (n : Z) (acc : Z) : Z :=
  match fuel with
  | O => acc
  | S fuel => if n <? 10 then acc else log10_up fuel (n / 10) (acc + 1)
  end.

(** Least [k] with [num * 10^k >= den]. *)
Fixpoint scale_up (fuel : nat) (num den : Z) (k : Z) : Z :=
  match fuel with
  | O => k
  | S fuel => if den <=? num then k else scale_up fuel (num * 10) den (k + 1)
  end.

(** Decimal exponent of the positive rational [num / den]. *)
Definition exponent10 (num den : Z) : Z :=
  if den <=? num then log10_up 400 (num / den) 0
  else - scale_up 400 num den 0.

Definition round_half_even (n d : Z) : Z :=
  let q := n / d in
  let r := n mod d in
  if (d <? 2 * r) || ((d =? 2 * r) && Z.odd q) then q + 1 else q.

(** Six significant digits of [num / den] and the decimal exponent of
    the rounded value. *)
Definition six_digits (num den : Z) : Z * Z :=
  let x := exponent10 num den in
  let q := if x <=? 5 then round_half_even (num * 10 ^ (5 - x)) den
           else round_half_even num (den * 10 ^ (x - 5)) in
  if 1000000 <=? q then (100000, x + 1) else (q, x).

Definition zeros (n : Z) : string :=
  string_of_list_ascii (List.repeat "0"%char (Z.to_nat n)).

Definition with_point (int frac : string) : string :=
  match strip_zeros frac with
  | EmptyString => int
  | f => int +:+ "." +:+ f
  end.

Definition two_digits (n : Z) : string :=
  if n <? 10 then "0" +:+ pretty n else pretty n.

Definition general (num den : Z) : string :=
  let '(q, x) := six_digits num den in
  let ds := pretty q in
  if (-4 <=? x) && (x <? 6) then
    if 0 <=? x then
      with_point (substring 0 (Z.to_nat (x + 1)) ds)
                 (substring (Z.to_nat (x + 1)) (Z.to_nat (5 - x)) ds)
    else with_point "0" (zeros (- x - 1) +:+ ds)
  else
    with_point (substring 0 1 ds) (substring 1 5 ds)
      +:+ "e" +:+ (if x <? 0 then "-" else "+") +:+ two_digits (Z.abs x).

Definition signed (s : bool) (t : string) : string :=
  if s then "-" +:+ t else t.

Definition format (c : double) : string :=
  match Prim2SF c with
  | S754_zero s => signed s "0"
  | S754_infinity s => signed s "inf"
  | S754_nan => "nan"
  | S754_finite s m e =>
      signed s (if 0 <=? e then general (Z.pos m * 2 ^ e) 1
                else general (Z.pos m) (2 ^ (- e)))
  end.

End Printf.

Definition default_format : DoubleFormat := Printf.format.

(** [std::endl]: a newline (the flush has no effect on the text). *)
Definition endl (os : ostream) (w : sinks) : sinks :=
  put_char os "010"%char w.

(** ** The classes derived from [TwoOp] *)

Inductive TwoOp_class : Set := Sum | Product.

(** ** Construction expressions

    What a caller writes to build a tree: [new], [std::make_unique] or
    [std::make_shared] applied to the arguments of a constructor, or
    [nullptr] in the place of a child.  The same expression can be read
    in each of the three programs. *)
Inductive recipe : Type :=
| r_nullptr
| r_Constant (c : double)
| r_Variable
| r_TwoOp (cls : TwoOp_class) (left right : recipe).

(** The tree both [main] functions build, commented [// 4 * (5+x)]
    there. *)
Definition main_recipe : recipe :=
  r_TwoOp Product (r_Constant 4) (r_TwoOp Sum (r_Constant 5) r_Variable).

(** The three operations the specification names. *)
Inductive operation : Set := op_evaluate | op_print | op_derivative.

(** * The hand-written classes of [block-2b.md] *)

Module Raw.

(** [TwoOp] keeps [Expression *left, *right] and deletes them in its
    destructor (lines 130-141): every object has one owner. *)
Inductive Expression : Type :=
| Constant (c : double)
| Variable_
| TwoOp (cls : TwoOp_class) (left right : pointer)
with pointer : Type :=
| nullptr
| new (e : Expression).

Section WithFormat.
Context `{DoubleFormat}.

(** [Constant::evaluate], [Variable::evaluate], [Sum::evaluate]
    (lines 147-149) and [Product::evaluate] (lines 163-165);
    [arrow_evaluate p x] is [p->evaluate(x)]. *)
Fixpoint evaluate (this : Expression) (x : double) : outcome double :=
  match this with
  | Constant c => Done c
  | Variable_ => Done x
  | TwoOp Sum l r =>
      a ← arrow_evaluate l x; b ← arrow_evaluate r x;
      Done (a + b)%float
  | TwoOp Product l r =>
      a ← arrow_evaluate l x; b ← arrow_evaluate r x;
      Done (a * b)%float
  end
with arrow_evaluate (p : pointer) (x : double) : outcome double :=
  match p with
  | nullptr => Fault
  | new e => evaluate e x
  end.

(** [Constant::print], [Variable::print], [Sum::print] (lines
    150-156) and [Product::print] (lines 166-170). *)
Fixpoint print (this : Expression) (os : ostream) (w : sinks)
  : outcome sinks :=
  match this with
  | Constant c => Done (put os (format_double c) w)
  | Variable_ => Done (put_char os "x" w)
  | TwoOp Sum l r =>
      w ← arrow_print l os (put_char os "(" w);
      w ← arrow_print r os (put_char os "+" w);
      Done (put_char os ")" w)
  | TwoOp Product l r =>
      w ← arrow_print l os w;
      w ← arrow_print r os (put_char os "*" w);
      Done w
  end
with arrow_print (p : pointer) (os : ostream) (w : sinks)
  : outcome sinks :=
  match p with
  | nullptr => Fault
  | new e => print e os w
  end.

(** The characters [p->print(os)] appends to a stream. *)
Definition text (p : pointer) : outcome string :=
  w ← arrow_print p cout ∅; Done (written w cout).

End WithFormat.

Fixpoint build (e : recipe) : pointer :=
  match e with
  | r_nullptr => nullptr
  | r_Constant c => new (Constant c)
  | r_Variable => new Variable_
  | r_TwoOp cls l r => new (TwoOp cls (build l) (build r))
  end.

End Raw.

(** * [asset/2b-expr-unique.cpp] *)

Module Unique.

(** [class Expression] (lines 4-9) declares [evaluate] and [print],
    and no [derivative]. *)
Definition Expression_interface : list operation := [op_evaluate; op_print].

(** [TwoOp] keeps [std::unique_ptr<Expression> left, right]; its
    constructor (lines 47-48) moves the two pointers in, whatever they
    are. *)
Inductive Expression : Type :=
| Constant (c : double)
| Variable_
| TwoOp (cls : TwoOp_class) (left right : unique_ptr)
with unique_ptr : Type :=
| nullptr
| make_unique (e : Expression).

Scheme Expression_mut := Induction for Expression Sort Prop
  with unique_ptr_mut := Induction for unique_ptr Sort Prop.

(** [Sum::calc] (lines 64-66) and [Product::calc] (lines 76-78). *)
Definition calc (cls : TwoOp_class) (a b : double) : double :=
  match cls with
  | Sum => (a + b)%float
  | Product => (a + b)%float
  end.

(** [Sum::op] (lines 67-69) and [Product::op] (lines 79-81). *)
Definition op (cls : TwoOp_class) : ascii :=
  match cls with
  | Sum => "+"%char
  | Product => "*"%char
  end.

(** [Constant::evaluate], [Variable::evaluate] and the final
    [TwoOp::evaluate] (lines 50-52). *)
Fixpoint evaluate (this : Expression) (x : double) : outcome double :=
  match this with
  | Constant c => Done c
  | Variable_ => Done x
  | TwoOp cls l r =>
      a ← arrow_evaluate l x; b ← arrow_evaluate r x;
      Done (calc cls a b)
  end
with arrow_evaluate (p : unique_ptr) (x : double) : outcome double :=
  match p with
  | nullptr => Fault
  | make_unique e => evaluate e x
  end.

Fixpoint build (e : recipe) : unique_ptr :=
  match e with
  | r_nullptr => nullptr
  | r_Constant c => make_unique (Constant c)
  | r_Variable => make_unique Variable_
  | r_TwoOp cls l r =>
      make_unique (TwoOp cls (build l) (build r))
  end.

(** The tree of [main] (lines 88-94). *)
Definition main_e : unique_ptr :=
  make_unique (TwoOp Product
    (make_unique (Constant 4))
    (make_unique (TwoOp Sum
      (make_unique (Constant 5))
      (make_unique Variable_)))).

Section WithFormat.
Context `{DoubleFormat}.

(** [Constant::print], [Variable::print] and the final
    [TwoOp::print] (lines 53-59). *)
Fixpoint print (this : Expression) (os : ostream) (w : sinks)
  : outcome sinks :=
  match this with
  | Constant c => Done (put os (format_double c) w)
  | Variable_ => Done (put_char os "x" w)
  | TwoOp cls l r =>
      w ← arrow_print l os (put_char os "(" w);
      w ← arrow_print r os (put_char os (op cls) w);
      Done (put_char os ")" w)
  end
with arrow_print (p : unique_ptr) (os : ostream) (w : sinks)
  : outcome sinks :=
  match p with
  | nullptr => Fault
  | make_unique e => print e os w
  end.

(** [operator<<] (lines 11-14): print, then return the stream it
    was given. *)
Definition insert (os : ostream) (e : Expression) (w : sinks)
  : outcome (ostream * sinks) :=
  w ← print e os w; Done (os, w).

(** [os << *p]. *)
Definition arrow_insert (os : ostream) (p : unique_ptr) (w : sinks)
  : outcome (ostream * sinks) :=
  match p with
  | nullptr => Fault
  | make_unique e => insert os e w
  end.

Definition text (p : unique_ptr) : outcome string :=
  w ← arrow_print p cout ∅; Done (written w cout).

(** [main] (lines 86-97). *)
Definition main (w : sinks) : outcome sinks :=
  let e := main_e in
  '(os, w) ← arrow_insert cout e (put cout "f(x) = " w);
  let w := endl os w in
  let w := put cout "f(10) = " w in
  v ← arrow_evaluate e 10;
  Done (endl cout (put cout (format_double v) w)).

End WithFormat.

(** No null child anywhere below [p], and [p] itself is not null. *)
Fixpoint well_formed (p : unique_ptr) : bool :=
  match p with
  | nullptr => false
  | make_unique (Constant _) | make_unique Variable_ => true
  | make_unique (TwoOp _ l r) => well_formed l && well_formed r
  end.

End Unique.

(** * [asset/2b-expr-shared.cpp] *)

Module Shared.

(** [class Expression] (lines 4-10) declares [evaluate], [print] and
    [derivative]. *)
Definition Expression_interface : list operation :=
  [op_evaluate; op_print; op_derivative].

(** A [std::shared_ptr<Expression>] is null or holds the address of an
    object; copies of a pointer hold the same address. *)
Definition address := nat.

Inductive shared_ptr : Set :=
| nullptr
| ptr (a : address).

(** [TwoOp] keeps [std::shared_ptr<Expression> left, right]; its
    constructor (lines 49-50) copies the two pointers in, whatever
    they are. *)
Inductive Expression : Set :=
| Constant (c : double)
| Variable_
| TwoOp (cls : TwoOp_class) (left right : shared_ptr).

(** The objects allocated so far, in the order of allocation; no
    member function assigns to a field, so an object never changes.
    Reference counts and deallocation are not represented. *)
Abbreviation heap := (list Expression).

(** [*p]. *)
Definition deref (h : heap) (p : shared_ptr) : outcome Expression :=
  match p with
  | nullptr => Fault
  | ptr a => match h !! a with
             | Some o => Done o
             | None => Fault
             end
  end.

(** [std::make_shared<T>(args)]: a new object at a fresh address. *)
Definition make_shared (o : Expression) (h : heap)
  : outcome (shared_ptr * heap) :=
  Done (ptr (length h), h ++ [o]).

(** The two arguments of a call are evaluated one after the other, in
    an order the compiler chooses. *)
Inductive argument_order : Set := left_to_right | right_to_left.

Definition both {A B : Type} (ord : argument_order)
    (fa : heap -> outcome (A * heap)) (fb : heap -> outcome (B * heap))
    (h : heap) : outcome (A * B * heap) :=
  match ord with
  | left_to_right =>
      '(a, h) ← fa h; '(b, h) ← fb h; Done (a, b, h)
  | right_to_left =>
      '(b, h) ← fb h; '(a, h) ← fa h; Done (a, b, h)
  end.

(** [f] started in [h] returns, having only allocated: the heap it
    leaves is [h] followed by new objects, and [Q] holds of its
    result there. *)
Definition allocates {A : Type} (f : heap -> outcome (A * heap))
    (h : heap) (Q : A -> heap -> Prop) : Prop :=
  exists a new, f h = Done (a, h ++ new) /\ Q a (h ++ new).

(** [Q] survives further allocation. *)
Definition stable {A : Type} (Q : A -> heap -> Prop) : Prop :=
  forall a h new, Q a h -> Q a (h ++ new).

(** [Sum::calc] (lines 66-68) and [Product::calc] (lines 81-83). *)
Definition calc (cls : TwoOp_class) (a b : double) : double :=
  match cls with
  | Sum => (a + b)%float
  | Product => (a + b)%float
  end.

(** [Sum::op] (lines 69-71) and [Product::op] (lines 84-86). *)
Definition op (cls : TwoOp_class) : ascii :=
  match cls with
  | Sum => "+"%char
  | Product => "*"%char
  end.

(** [this->evaluate(x)]: [Constant::evaluate], [Variable::evaluate]
    and the final [TwoOp::evaluate] (lines 52-54).  The two recursive
    calls change nothing, so their order only decides which of two
    failures is reported; the left one is taken first. *)
Fixpoint evaluate (fuel : nat) (h : heap) (this : shared_ptr) (x : double)
  : outcome double :=
  match fuel with
  | O => Starved
  | S fuel =>
      o ← deref h this;
      match o with
      | Constant c => Done c
      | Variable_ => Done x
      | TwoOp cls l r =>
          a ← evaluate fuel h l x; b ← evaluate fuel h r x;
          Done (calc cls a b)
      end
  end.

(** [this->derivative()]: [Constant::derivative] (lines 23-25),
    [Variable::derivative] (lines 37-39), [Sum::derivative] (lines
    74-76) and [Product::derivative] (lines 90-95). *)
Fixpoint derivative (ord : argument_order) (fuel : nat)
    (this : shared_ptr) (h : heap) : outcome (shared_ptr * heap) :=
  match fuel with
  | O => Starved
  | S fuel =>
      o ← deref h this;
      match o with
      | Constant _ => make_shared (Constant 0) h
      | Variable_ => make_shared (Constant 1) h
      | TwoOp Sum l r =>
          '(dl, dr, h) ← both ord (derivative ord fuel l)
                                  (derivative ord fuel r) h;
          make_shared (TwoOp Sum dl dr) h
      | TwoOp Product l r =>
          '(p1, p2, h) ← both ord
            (fun h => '(dr, h) ← derivative ord fuel r h;
                      make_shared (TwoOp Product l dr) h)
            (fun h => '(dl, h) ← derivative ord fuel l h;
                      make_shared (TwoOp Product dl r) h) h;
          make_shared (TwoOp Sum p1 p2) h
      end
  end.

(** Nested [std::make_shared] calls, as in [main] (lines 100-106). *)
Fixpoint build (ord : argument_order) (e : recipe) (h : heap)
  : outcome (shared_ptr * heap) :=
  match e with
  | r_nullptr => Done (nullptr, h)
  | r_Constant c => make_shared (Constant c) h
  | r_Variable => make_shared Variable_ h
  | r_TwoOp cls l r =>
      '(pl, pr, h) ← both ord (build ord l) (build ord r) h;
      make_shared (TwoOp cls pl pr) h
  end.

(** The exclusive-ownership tree with the shape of what [p] reaches:
    every shared object is copied once per path to it. *)
Fixpoint deep_copy (fuel : nat) (h : heap) (p : shared_ptr)
  : outcome Unique.unique_ptr :=
  match fuel with
  | O => Starved
  | S fuel =>
      match p with
      | nullptr => Done Unique.nullptr
      | ptr a =>
          match h !! a with
          | None => Fault
          | Some (Constant c) =>
              Done (Unique.make_unique (Unique.Constant c))
          | Some Variable_ => Done (Unique.make_unique Unique.Variable_)
          | Some (TwoOp cls l r) =>
              tl ← deep_copy fuel h l; tr ← deep_copy fuel h r;
              Done (Unique.make_unique (Unique.TwoOp cls tl tr))
          end
      end
  end.

(** [p] reaches a finite tree without null children. *)
Definition well_formed (fuel : nat) (h : heap) (p : shared_ptr) : bool :=
  match deep_copy fuel h p with
  | Done t => Unique.well_formed t
  | _ => false
  end.

Section WithFormat.
Context `{DoubleFormat}.

(** [this->print(os)]: [Constant::print], [Variable::print] and the
    final [TwoOp::print] (lines 55-61). *)
Fixpoint print (fuel : nat) (h : heap) (this : shared_ptr)
    (os : ostream) (w : sinks) : outcome sinks :=
  match fuel with
  | O => Starved
  | S fuel =>
      o ← deref h this;
      match o with
      | Constant c => Done (put os (format_double c) w)
      | Variable_ => Done (put_char os "x" w)
      | TwoOp cls l r =>
          w ← print fuel h l os (put_char os "(" w);
          w ← print fuel h r os (put_char os (op cls) w);
          Done (put_char os ")" w)
      end
  end.

Definition text (fuel : nat) (h : heap) (p : shared_ptr)
  : outcome string :=
  w ← print fuel h p cout ∅; Done (written w cout).

(** [main] (lines 98-113), started with nothing allocated. *)
Definition main (ord : argument_order) (fuel : nat) (w : sinks)
  : outcome sinks :=
  '(e, h) ← build ord main_recipe [];
  w ← print fuel h e cout w;
  let w := put_char cout "=" w in
  v ← evaluate fuel h e 10;
  let w := endl cout (put cout (format_double v) w) in
  '(ed, h) ← derivative ord fuel e h;
  print fuel h ed cout w.

End WithFormat.

End Shared.

(** * The differentiation rules, in the words of the specification

    [d/dx Constant(c) = Constant(0)], [d/dx Variable() = Constant(1)],
    [d/dx Sum(l, r) = Sum(d l, d r)] and
    [d/dx Product(l, r) = Sum(Product(l, d r), Product(d l, r))],
    written on exclusive-ownership trees; the shared-ownership
    [derivative] is compared with it. *)
Module Rules.
Import Unique.

Fixpoint derivative_rule (t : Expression) : Expression :=
  match t with
  | Constant _ => Constant 0
  | Variable_ => Constant 1
  | TwoOp Sum l r =>
      TwoOp Sum (arrow_derivative_rule l) (arrow_derivative_rule r)
  | TwoOp Product l r =>
      TwoOp Sum
        (make_unique (TwoOp Product l (arrow_derivative_rule r)))
        (make_unique (TwoOp Product (arrow_derivative_rule l) r))
  end
with arrow_derivative_rule (p : unique_ptr) : unique_ptr :=
  match p with
  | nullptr => nullptr
  | make_unique e => make_unique (derivative_rule e)
  end.

End Rules.

(** Nesting depth of a construction expression. *)
Fixpoint height (e : recipe) : nat :=
  match e with
  | r_nullptr | r_Constant _ | r_Variable => O
  | r_TwoOp _ l r => S (Nat.max (height l) (height r))
  end.

(** * Shapes and sizes of trees *)

Module Shape.
Import Unique.

(** Number of objects of a tree. *)
Fixpoint nodes (p : unique_ptr) : nat :=
  match p with
  | nullptr => O
  | make_unique (TwoOp _ l r) => S (nodes l + nodes r)
  | make_unique _ => 1
  end.

(** Number of [std::make_shared] calls in [derivative] and the calls
    below it: one for a leaf and for a [Sum], three for a [Product]. *)
Fixpoint derivative_cost (p : unique_ptr) : nat :=
  match p with
  | nullptr => O
  | make_unique (TwoOp Sum l r) => S (derivative_cost l + derivative_cost r)
  | make_unique (TwoOp Product l r) =>
      3 + (derivative_cost l + derivative_cost r)
  | make_unique _ => 1
  end.

(** No [Product] object in the tree. *)
Fixpoint product_free (p : unique_ptr) : bool :=
  match p with
  | nullptr => true
  | make_unique (TwoOp Sum l r) => product_free l && product_free r
  | make_unique (TwoOp Product _ _) => false
  | make_unique _ => true
  end.

(** No [Variable] object in the tree. *)
Fixpoint variable_free (p : unique_ptr) : bool :=
  match p with
  | nullptr => true
  | make_unique Variable_ => false
  | make_unique (TwoOp _ l r) => variable_free l && variable_free r
  | make_unique _ => true
  end.

End Shape.

(** * Nesting of parentheses in a printed text *)

Module Nesting.

(** The nesting depth after reading [s] at depth [d]; [None] when a
    closing parenthesis has no opening one before it. *)
Fixpoint depth_after (d : nat) (s : string) : option nat :=
  match s with
  | EmptyString => Some d
  | String c s' =>
      if Ascii.eqb c "(" then depth_after (S d) s'
      else if Ascii.eqb c ")" then
        match d with
        | O => None
        | S d' => depth_after d' s'
        end
      else depth_after d s'
  end.

(** No parenthesis in [s]. *)
Fixpoint plain (s : string) : bool :=
  match s with
  | EmptyString => true
  | String c s' => negb (Ascii.eqb c "(") && negb (Ascii.eqb c ")") && plain s'
  end.

(** The numerals of all constants of a tree are plain. *)
Fixpoint plain_numerals `{DoubleFormat} (p : Unique.unique_ptr) : bool :=
  match p with
  | Unique.nullptr => true
  | Unique.make_unique (Unique.Constant c) => plain (format_double c)
  | Unique.make_unique Unique.Variable_ => true
  | Unique.make_unique (Unique.TwoOp _ l r) =>
      plain_numerals l && plain_numerals r
  end.

End Nesting.

(** * Heaps in which every pointer is older than its holder *)

Module Order.
Import Shared.

(** [p] is null or the address of an object allocated before [a]. *)
Definition below (a : address) (p : shared_ptr) : bool :=
  match p with
  | nullptr => true
  | ptr b => b <? a
  end.

Definition children_below (a : address) (o : Expression) : bool :=
  match o with
  | TwoOp _ l r => below a l && below a r
  | _ => true
  end.

Fixpoint ordered_from (a : address) (h : heap) : bool :=
  match h with
  | [] => true
  | o :: h' => children_below a o && ordered_from (S a) h'
  end.

(** Every object holds pointers to older objects only. *)
Definition ordered (h : heap) : bool := ordered_from 0 h.

(** [h] is ordered and [p] is null or points into it. *)
Definition tidy (h : heap) (p : shared_ptr) : Prop :=
  ordered h = true /\ below (length h) p = true.

End Order.

(** * What a call leaves in the heap, when it returns *)

Module Effects.
Import Shared.

(** If [f] started in [h] returns, it has only allocated (the heap it
    leaves starts with [h]), and [Q] holds of its result and that
    heap. *)
Definition ensures {A : Type} (f : heap -> outcome (A * heap))
    (h : heap) (Q : A -> heap -> Prop) : Prop :=
  forall a h', f h = Done (a, h') -> h `prefix_of` h' /\ Q a h'.

(** [f] returns or faults, however many objects have been allocated
    since [h]; it never starves. *)
Definition settles {A : Type} (f : heap -> outcome (A * heap))
    (h : heap) : Prop :=
  forall ext,
    (exists a new, f (h ++ ext) = Done (a, (h ++ ext) ++ new)) \/
    f (h ++ ext) = Fault.

End Effects.

(** Induction on the trees of [block-2b.md]. *)
Scheme raw_Expression_mut := Induction for Raw.Expression Sort Prop
  with raw_pointer_mut := Induction for Raw.pointer Sort Prop.

(** * [new] and [delete] of the hand-written classes

    The classes of [block-2b.md] before the smart pointers: children
    are raw pointers, allocated by the caller with [new] and released
    by the destructor of their parent. *)

Module Store.

Definition address := nat.

(** An [Expression *]. *)
Inductive pointer : Set :=
| nullptr
| object_at (a : address).

Inductive Expression : Set :=
| Constant (c : double)
| Variable_
| TwoOp (cls : TwoOp_class) (left right : pointer).

(** The objects that are alive, by address. *)
Abbreviation store := (gmap address Expression).

(** [new T(args)]: the object is placed at an address that holds no
    live object. *)
Definition new (o : Expression) (s : store) : pointer * store :=
  let a := fresh (dom s) in (object_at a, <[a := o]> s).

(** [delete p]: nothing for a null pointer; otherwise the destructor
    of the object runs ([~Sum] of lines 91-94 and [~TwoOp] of lines
    137-140 delete [left], then [right]; [Constant] and [Variable]
    have nothing to release) and the object is freed.  Deleting what
    is not alive is undefined behaviour. *)
Fixpoint delete (fuel : nat) (p : pointer) (s : store) {struct fuel}
  : outcome store :=
  match p with
  | nullptr => Done s
  | object_at a =>
      match fuel with
      | O => Starved
      | S fuel =>
          match s !! a with
          | None => Fault
          | Some (TwoOp _ l r) =>
              s ← delete fuel l s; s ← delete fuel r s;
              Done (base.delete a s)
          | Some _ => Done (base.delete a s)
          end
      end
  end.

(** Nested [new] expressions, as in
    [new Sum(new Variable, new Constant(5))] (line 108); the two
    arguments are allocated in either order. *)
Fixpoint build (ord : Shared.argument_order) (e : recipe) (s : store)
  : pointer * store :=
  match e with
  | r_nullptr => (nullptr, s)
  | r_Constant c => new (Constant c) s
  | r_Variable => new Variable_ s
  | r_TwoOp cls l r =>
      match ord with
      | Shared.left_to_right =>
          let '(pl, s) := build ord l s in
          let '(pr, s) := build ord r s in
          new (TwoOp cls pl pr) s
      | Shared.right_to_left =>
          let '(pr, s) := build ord r s in
          let '(pl, s) := build ord l s in
          new (TwoOp cls pl pr) s
      end
  end.

(** [build] turned [s] into [s'] by allocating the objects at the
    addresses [K], all of them free before, and [delete p] releases
    exactly those from any store that holds them, within a budget of
    one more than [hgt]. *)
Definition disposable (s : store) (p : pointer) (s' : store)
    (K : gset address) (hgt : nat) : Prop :=
  (forall i, i ∈ K -> s !! i = None /\ is_Some (s' !! i)) /\
  (forall i, i ∉ K -> s' !! i = s !! i) /\
  forall (S0 : store) (k : nat),
    (forall i, i ∈ K -> S0 !! i = s' !! i) ->
    exists S1, delete (S (hgt + k)) p S0 = Done S1 /\
               forall i, S1 !! i = if decide (i ∈ K) then None else S0 !! i.

End Store.

(** * Outcomes and streams *)

Section Basics.

Lemma bind_Done {A B : Type} (m : outcome A) (k : A -> outcome B) (b : B) :
  m ≫= k = Done b -> exists a, m = Done a /\ k a = Done b.
Proof. destruct m as [a| |]; simpl; intros E; try discriminate; eauto. Qed.

Lemma string_app_cons (x : ascii) (a b : string) :
  String x a +:+ b = String x (a +:+ b).
Proof. reflexivity. Qed.

Lemma string_app_assoc (a b c : string) :
  (a +:+ b) +:+ c = a +:+ (b +:+ c).
Proof.
  induction a as [|x a IH]; [reflexivity|].
  rewrite !string_app_cons. f_equal. exact IH.
Qed.

Lemma written_put (os : ostream) (s : string) (w : sinks) :
  written (put os s w) os = written w os +:+ s.
Proof. unfold written, put. apply lookup_total_insert_eq. Qed.

Lemma written_put_other (os os' : ostream) (s : string) (w : sinks) :
  os <> os' -> written (put os s w) os' = written w os'.
Proof. intros Hne. unfold written, put. now apply lookup_total_insert_ne. Qed.

Lemma put_put (os : ostream) (s1 s2 : string) (w : sinks) :
  put os s2 (put os s1 w) = put os (s1 +:+ s2) w.
Proof.
  unfold put at 1. rewrite written_put. unfold put.
  now rewrite insert_insert_eq, string_app_assoc.
Qed.

Lemma written_empty (os : ostream) : written ∅ os = "".
Proof. unfold written. now rewrite lookup_total_empty. Qed.

Lemma written_put_empty (os : ostream) (s : string) :
  written (put os s ∅) os = s.
Proof. now rewrite written_put, written_empty. Qed.

End Basics.

(** * The exclusive-ownership program *)

Section UniqueFacts.
Import Unique.
Context `{DoubleFormat}.

(** Induction on what a pointer owns. *)
Lemma unique_ptr_induction (P : unique_ptr -> Prop) :
  P nullptr ->
  (forall c, P (make_unique (Constant c))) ->
  P (make_unique Variable_) ->
  (forall cls l r, P l -> P r -> P (make_unique (TwoOp cls l r))) ->
  forall p, P p.
Proof.
  intros Hnull Hc Hv Ht.
  apply (unique_ptr_mut (fun e => P (make_unique e)) P); auto.
Qed.

(** [print] only appends to the stream it is given, and what it
    appends depends on the tree alone. *)
Lemma unique_print_appends (p : unique_ptr) :
  exists o : outcome string,
    forall os w, arrow_print p os w = (s ← o; Done (put os s w)).
Proof.
  induction p as [|c| |cls l r [ol IHl] [or IHr]] using unique_ptr_induction.
  - exists Fault. reflexivity.
  - exists (Done (format_double c)). reflexivity.
  - exists (Done "x"). reflexivity.
  - exists (sl ← ol; sr ← or;
            Done ("(" +:+ sl +:+ String (op cls) (sr +:+ ")"))).
    intros os w. simpl. rewrite IHl.
    destruct ol as [sl| |]; simpl; try reflexivity.
    rewrite IHr. destruct or as [sr| |]; simpl; try reflexivity.
    unfold put_char. rewrite !put_put. reflexivity.
Qed.

Lemma unique_print_text (p : unique_ptr) (os : ostream) (w : sinks) :
  arrow_print p os w = (s ← text p; Done (put os s w)).
Proof.
  destruct (unique_print_appends p) as [o Ho].
  unfold text. rewrite !Ho.
  destruct o as [s| |]; reflexivity.
Qed.

Lemma unique_text_TwoOp (cls : TwoOp_class) (l r : unique_ptr) :
  text (make_unique (TwoOp cls l r)) =
  (sl ← text l; sr ← text r;
   Done ("(" +:+ sl +:+ String (op cls) (sr +:+ ")"))).
Proof.
  unfold text at 1. simpl. rewrite (unique_print_text l).
  destruct (text l) as [sl| |]; simpl; try reflexivity.
  rewrite (unique_print_text r).
  destruct (text r) as [sr| |]; simpl; try reflexivity.
  unfold put_char. rewrite !put_put, written_put_empty. reflexivity.
Qed.

Lemma unique_evaluate_total (p : unique_ptr) (x : double) :
  well_formed p = true -> exists v, arrow_evaluate p x = Done v.
Proof.
  induction p as [|c| |cls l r IHl IHr] using unique_ptr_induction;
    simpl; intros Hwf; try discriminate; eauto.
  apply andb_prop in Hwf as [Hl Hr].
  destruct (IHl Hl) as [a ->], (IHr Hr) as [b ->]. simpl. eauto.
Qed.

Lemma unique_text_total (p : unique_ptr) :
  well_formed p = true -> exists s, text p = Done s.
Proof.
  induction p as [|c| |cls l r IHl IHr] using unique_ptr_induction;
    intros Hwf; try discriminate.
  - eexists. reflexivity.
  - eexists. reflexivity.
  - simpl in Hwf. apply andb_prop in Hwf as [Hl Hr].
    rewrite unique_text_TwoOp.
    destruct (IHl Hl) as [a ->], (IHr Hr) as [b ->]. simpl. eauto.
Qed.

Lemma unique_null_child_faults (cls : TwoOp_class) (l r : unique_ptr) :
  l = nullptr \/ r = nullptr ->
  (forall x v, evaluate (TwoOp cls l r) x <> Done v) /\
  (forall os w w', print (TwoOp cls l r) os w <> Done w').
Proof.
  intros Hnull. split.
  - intros x v E. simpl in E.
    apply bind_Done in E as (a & Ea & E).
    apply bind_Done in E as (b & Eb & _).
    destruct Hnull as [-> | ->]; discriminate.
  - intros os w w' E. simpl in E.
    apply bind_Done in E as (w1 & E1 & E).
    apply bind_Done in E as (w2 & E2 & _).
    destruct Hnull as [-> | ->]; discriminate.
Qed.

End UniqueFacts.

(** * The shared-ownership program *)

Section SharedFacts.
Import Shared.
Context `{DoubleFormat}.

Lemma lookup_extend (h new : heap) (a : address) (o : Expression) :
  h !! a = Some o -> (h ++ new) !! a = Some o.
Proof. apply lookup_app_l_Some. Qed.

Lemma lookup_fresh (h : heap) (o : Expression) :
  (h ++ [o]) !! length h = Some o.
Proof. rewrite lookup_app_r by lia. now rewrite Nat.sub_diag. Qed.

(** Allocation and a larger budget leave the tree below a pointer as
    it is. *)
Lemma deep_copy_mono (n : nat) :
  forall m h new p t,
    deep_copy n h p = Done t -> (n <= m)%nat ->
    deep_copy m (h ++ new) p = Done t.
Proof.
  induction n as [|n IH]; intros m h new p t E Hle; [discriminate|].
  destruct m as [|m]; [lia|]. simpl in *.
  destruct p as [|a]; [exact E|].
  destruct (h !! a) as [o|] eqn:Ea; [|discriminate].
  rewrite (lookup_extend _ new _ _ Ea).
  destruct o as [c| |cls l r]; try exact E.
  apply bind_Done in E as (tl & El & E).
  apply bind_Done in E as (tr & Er & E).
  rewrite (IH m h new l tl El), (IH m h new r tr Er) by lia. exact E.
Qed.

Lemma deep_copy_more_fuel (n m : nat) (h : heap) (p : shared_ptr) t :
  deep_copy n h p = Done t -> (n <= m)%nat -> deep_copy m h p = Done t.
Proof.
  intros E Hle. rewrite <- (app_nil_r h). now apply deep_copy_mono with n.
Qed.

(** The shared-ownership [evaluate] computes what the
    exclusive-ownership [evaluate] computes on the tree the pointer
    reaches. *)
Lemma shared_evaluate_copy (n : nat) :
  forall h p t x,
    deep_copy n h p = Done t ->
    evaluate n h p x = Unique.arrow_evaluate t x.
Proof.
  induction n as [|n IH]; intros h p t x E; [discriminate|].
  simpl in *. destruct p as [|a]; [now inversion E|]. simpl.
  destruct (h !! a) as [o|] eqn:Ea; [|discriminate]. simpl.
  destruct o as [c| |cls l r]; try (now inversion E).
  apply bind_Done in E as (tl & El & E).
  apply bind_Done in E as (tr & Er & E).
  inversion E; subst t; clear E. simpl.
  rewrite (IH h l tl x El), (IH h r tr x Er). now destruct cls.
Qed.

Lemma shared_print_copy (n : nat) :
  forall h p t os w,
    deep_copy n h p = Done t ->
    print n h p os w = Unique.arrow_print t os w.
Proof.
  induction n as [|n IH]; intros h p t os w E; [discriminate|].
  simpl in *. destruct p as [|a]; [now inversion E|]. simpl.
  destruct (h !! a) as [o|] eqn:Ea; [|discriminate]. simpl.
  destruct o as [c| |cls l r]; try (now inversion E).
  apply bind_Done in E as (tl & El & E).
  apply bind_Done in E as (tr & Er & E).
  inversion E; subst t; clear E. simpl.
  rewrite (IH h l tl os _ El).
  destruct (Unique.arrow_print tl os _) as [w1| |]; simpl; try reflexivity.
  rewrite (IH h r tr os _ Er). now destruct cls.
Qed.

Lemma allocates_bind {A B : Type} (f : heap -> outcome (A * heap))
    (g : A -> heap -> outcome (B * heap)) (h : heap)
    (Q : A -> heap -> Prop) (R : B -> heap -> Prop) :
  allocates f h Q ->
  (forall a new, Q a (h ++ new) -> allocates (g a) (h ++ new) R) ->
  allocates (fun h => '(a, h) ← f h; g a h) h R.
Proof.
  intros (a & new & Ef & HQ) Hg.
  destruct (Hg a new HQ) as (b & new' & Eg & HR).
  exists b, (new ++ new'). rewrite Ef. simpl. rewrite Eg.
  now rewrite <- app_assoc in *.
Qed.

Lemma allocates_weaken {A : Type} (f : heap -> outcome (A * heap))
    (h : heap) (Q R : A -> heap -> Prop) :
  allocates f h Q -> (forall a new, Q a (h ++ new) -> R a (h ++ new)) ->
  allocates f h R.
Proof. intros (a & new & Ef & HQ) HQR. exists a, new. auto. Qed.

(** Two arguments that only allocate, in either order. *)
Lemma allocates_both {A B : Type} (ord : argument_order)
    (fa : heap -> outcome (A * heap)) (fb : heap -> outcome (B * heap))
    (h : heap) (QA : A -> heap -> Prop) (QB : B -> heap -> Prop) :
  stable QA -> stable QB ->
  (forall new, allocates fa (h ++ new) QA) ->
  (forall new, allocates fb (h ++ new) QB) ->
  allocates (both ord fa fb) h (fun ab h' => QA ab.1 h' /\ QB ab.2 h').
Proof.
  intros SA SB Ha Hb. destruct ord; unfold both.
  - destruct (Ha []) as (a & n1 & Ea & HA). rewrite app_nil_r in *.
    destruct (Hb n1) as (b & n2 & Eb & HB).
    apply (SA _ _ n2) in HA.
    exists (a, b), (n1 ++ n2). rewrite Ea. simpl. rewrite Eb. simpl.
    rewrite <- app_assoc in *. auto.
  - destruct (Hb []) as (b & n1 & Eb & HB). rewrite app_nil_r in *.
    destruct (Ha n1) as (a & n2 & Ea & HA).
    apply (SB _ _ n2) in HB.
    exists (a, b), (n1 ++ n2). rewrite Eb. simpl. rewrite Ea. simpl.
    rewrite <- app_assoc in *. auto.
Qed.

Lemma stable_deep_copy (n : nat) t :
  stable (fun p h => deep_copy n h p = Done t).
Proof. intros p h new E. now apply deep_copy_mono with n. Qed.

Lemma stable_deep_copy_from (k : nat) t :
  stable (fun p h => forall n, (k < n)%nat -> deep_copy n h p = Done t).
Proof. intros p h new E n Hn. apply deep_copy_mono with n; auto. Qed.

(** Nested [make_shared] calls never fail, whatever the pointers
    are, and build the tree the same [make_unique] calls build. *)
Lemma build_allocates (ord : argument_order) (e : recipe) :
  forall h,
    allocates (build ord e) h
      (fun p h' => forall n, (height e < n)%nat ->
                             deep_copy n h' p = Done (Unique.build e)).
Proof.
  induction e as [|c| |cls l IHl r IHr]; intros h.
  - exists nullptr, []. rewrite app_nil_r. split; [reflexivity|].
    intros [|n] Hn; [lia | reflexivity].
  - exists (ptr (length h)), [Constant c]. split; [reflexivity|].
    intros [|n] Hn; [lia|]. simpl. now rewrite lookup_fresh.
  - exists (ptr (length h)), [Variable_]. split; [reflexivity|].
    intros [|n] Hn; [lia|]. simpl. now rewrite lookup_fresh.
  - destruct (allocates_both ord (build ord l) (build ord r) h _ _
                (stable_deep_copy_from (height l) (Unique.build l))
                (stable_deep_copy_from (height r) (Unique.build r))
                (fun new => IHl (h ++ new)) (fun new => IHr (h ++ new)))
      as ([pl pr] & new & E & Hl & Hr). simpl in Hl, Hr.
    exists (ptr (length (h ++ new))), (new ++ [TwoOp cls pl pr]).
    rewrite app_assoc. split.
    + simpl. rewrite E. reflexivity.
    + intros [|n] Hn; [lia|]. simpl in Hn. simpl. rewrite lookup_fresh.
      rewrite (deep_copy_mono n n (h ++ new) _ pl (Unique.build l)),
              (deep_copy_mono n n (h ++ new) _ pr (Unique.build r));
        auto; try (apply Hl || apply Hr); lia.
Qed.

Lemma derivative_rule_well_formed (t : Unique.unique_ptr) :
  Unique.well_formed t = true ->
  Unique.well_formed (Rules.arrow_derivative_rule t) = true.
Proof.
  induction t as [|c| |cls l r IHl IHr] using unique_ptr_induction;
    simpl; intros Hwf; try discriminate; auto.
  apply andb_prop in Hwf as [Hl Hr].
  destruct cls; simpl; rewrite ?IHl, ?IHr, ?Hl, ?Hr; auto.
Qed.

(** One step of [Sum::derivative], given what the calls on the two
    children do. *)
Lemma derivative_Sum_step (ord : argument_order) (n : nat) (h : heap)
    (a : address) (l r : shared_ptr) (dtl dtr : Unique.unique_ptr) :
  h !! a = Some (TwoOp Sum l r) ->
  (forall new, allocates (derivative ord n l) (h ++ new)
                 (fun q h' => deep_copy (2 * n) h' q = Done dtl)) ->
  (forall new, allocates (derivative ord n r) (h ++ new)
                 (fun q h' => deep_copy (2 * n) h' q = Done dtr)) ->
  allocates (derivative ord (S n) (ptr a)) h
    (fun q h' => exists a' dl dr,
       q = ptr a' /\ h' !! a' = Some (TwoOp Sum dl dr) /\
       deep_copy (2 * n) h' dl = Done dtl /\
       deep_copy (2 * n) h' dr = Done dtr).
Proof.
  intros Ha Hl Hr.
  destruct (allocates_both ord _ _ h _ _
              (stable_deep_copy (2 * n) dtl) (stable_deep_copy (2 * n) dtr)
              Hl Hr) as ([dl dr] & new & E & Dl & Dr).
  simpl in Dl, Dr.
  exists (ptr (length (h ++ new))), (new ++ [TwoOp Sum dl dr]).
  rewrite app_assoc. split.
  - simpl. rewrite Ha. simpl. rewrite E. reflexivity.
  - exists (length (h ++ new)), dl, dr.
    repeat split; [apply lookup_fresh | |];
      now apply (stable_deep_copy (2 * n)).
Qed.

(** One step of [Product::derivative]: the two new [Product] objects
    hold the pointers [l] and [r] of the object differentiated. *)
Lemma derivative_Product_step (ord : argument_order) (n : nat) (h : heap)
    (a : address) (l r : shared_ptr) (dtl dtr : Unique.unique_ptr) :
  h !! a = Some (TwoOp Product l r) ->
  (forall new, allocates (derivative ord n l) (h ++ new)
                 (fun q h' => deep_copy (2 * n) h' q = Done dtl)) ->
  (forall new, allocates (derivative ord n r) (h ++ new)
                 (fun q h' => deep_copy (2 * n) h' q = Done dtr)) ->
  allocates (derivative ord (S n) (ptr a)) h
    (fun q h' => exists a' q1 q2 dl dr,
       q = ptr a' /\
       h' !! a' = Some (TwoOp Sum (ptr q1) (ptr q2)) /\
       h' !! q1 = Some (TwoOp Product l dr) /\
       h' !! q2 = Some (TwoOp Product dl r) /\
       deep_copy (2 * n) h' dl = Done dtl /\
       deep_copy (2 * n) h' dr = Done dtr).
Proof.
  intros Ha Hl Hr.
  set (QA := fun (p : shared_ptr) (h' : heap) => exists q1 dr,
         p = ptr q1 /\ h' !! q1 = Some (TwoOp Product l dr) /\
         deep_copy (2 * n) h' dr = Done dtr).
  set (QB := fun (p : shared_ptr) (h' : heap) => exists q2 dl,
         p = ptr q2 /\ h' !! q2 = Some (TwoOp Product dl r) /\
         deep_copy (2 * n) h' dl = Done dtl).
  assert (SA : stable QA).
  { intros p h0 new (q1 & dr & -> & E1 & Dr). exists q1, dr.
    repeat split; [now apply lookup_extend |].
    now apply (stable_deep_copy (2 * n)). }
  assert (SB : stable QB).
  { intros p h0 new (q2 & dl & -> & E2 & Dl). exists q2, dl.
    repeat split; [now apply lookup_extend |].
    now apply (stable_deep_copy (2 * n)). }
  assert (HA : forall new, allocates
            (fun h => '(dr, h) ← derivative ord n r h;
                      make_shared (TwoOp Product l dr) h) (h ++ new) QA).
  { intros new.
    apply (allocates_bind (derivative ord n r)
             (fun dr => make_shared (TwoOp Product l dr)) (h ++ new)
             (fun q h' => deep_copy (2 * n) h' q = Done dtr) QA (Hr new)).
    intros dr new' Dr.
    exists (ptr (length ((h ++ new) ++ new'))), [TwoOp Product l dr].
    split; [reflexivity|]. exists (length ((h ++ new) ++ new')), dr.
    repeat split; [apply lookup_fresh |].
    now apply (stable_deep_copy (2 * n)). }
  assert (HB : forall new, allocates
            (fun h => '(dl, h) ← derivative ord n l h;
                      make_shared (TwoOp Product dl r) h) (h ++ new) QB).
  { intros new.
    apply (allocates_bind (derivative ord n l)
             (fun dl => make_shared (TwoOp Product dl r)) (h ++ new)
             (fun q h' => deep_copy (2 * n) h' q = Done dtl) QB (Hl new)).
    intros dl new' Dl.
    exists (ptr (length ((h ++ new) ++ new'))), [TwoOp Product dl r].
    split; [reflexivity|]. exists (length ((h ++ new) ++ new')), dl.
    repeat split; [apply lookup_fresh |].
    now apply (stable_deep_copy (2 * n)). }
  destruct (allocates_both ord _ _ h QA QB SA SB HA HB)
    as ([p1 p2] & new & E & (q1 & dr & P1 & E1 & Dr) & (q2 & dl & P2 & E2 & Dl)).
  simpl in P1, P2. subst p1 p2.
  exists (ptr (length (h ++ new))),
         (new ++ [TwoOp Sum (ptr q1) (ptr q2)]).
  rewrite app_assoc. split.
  - simpl. rewrite Ha. simpl. rewrite E. reflexivity.
  - exists (length (h ++ new)), q1, q2, dl, dr.
    repeat split;
      [apply lookup_fresh | now apply lookup_extend
      | now apply lookup_extend | |];
      now apply (stable_deep_copy (2 * n)).
Qed.

Lemma deep_copy_TwoOp (k : nat) (h : heap) (a : address)
    (cls : TwoOp_class) (l r : shared_ptr) (tl tr : Unique.unique_ptr) :
  h !! a = Some (TwoOp cls l r) ->
  deep_copy k h l = Done tl -> deep_copy k h r = Done tr ->
  deep_copy (S k) h (ptr a) =
  Done (Unique.make_unique (Unique.TwoOp cls tl tr)).
Proof. intros Ha El Er. simpl. now rewrite Ha, El, Er. Qed.

(** [derivative] follows the four rules: on a well-formed tree it
    returns, only allocates, and what it returns reaches the tree the
    rules give. *)
Lemma derivative_refines (ord : argument_order) (n : nat) :
  forall h p t,
    deep_copy n h p = Done t -> Unique.well_formed t = true ->
    allocates (derivative ord n p) h
      (fun q h' =>
         deep_copy (2 * n) h' q = Done (Rules.arrow_derivative_rule t)).
Proof.
  induction n as [|n IH]; intros h p t E Hwf; [discriminate|].
  simpl in E. destruct p as [|a]; [now inversion E; subst t|].
  destruct (h !! a) as [o|] eqn:Ea; [|discriminate].
  replace (2 * S n)%nat with (S (S (2 * n))) by lia.
  destruct o as [c| |cls l r].
  - inversion E; subst t.
    exists (ptr (length h)), [Constant 0]. split.
    + simpl. now rewrite Ea.
    + simpl. now rewrite lookup_fresh.
  - inversion E; subst t.
    exists (ptr (length h)), [Constant 1]. split.
    + simpl. now rewrite Ea.
    + simpl. now rewrite lookup_fresh.
  - apply bind_Done in E as (tl & El & E).
    apply bind_Done in E as (tr & Er & E).
    inversion E; subst t; clear E.
    simpl in Hwf. apply andb_prop in Hwf as [Wl Wr].
    assert (Hl : forall new, allocates (derivative ord n l) (h ++ new)
              (fun q h' => deep_copy (2 * n) h' q =
                           Done (Rules.arrow_derivative_rule tl))).
    { intros new. apply IH; [|exact Wl]. now apply deep_copy_mono with n. }
    assert (Hr : forall new, allocates (derivative ord n r) (h ++ new)
              (fun q h' => deep_copy (2 * n) h' q =
                           Done (Rules.arrow_derivative_rule tr))).
    { intros new. apply IH; [|exact Wr]. now apply deep_copy_mono with n. }
    destruct cls.
    + apply (allocates_weaken _ _ _ _
               (derivative_Sum_step ord n h a l r _ _ Ea Hl Hr)).
      intros q new (a' & dl & dr & -> & Ea' & Dl & Dr).
      apply deep_copy_TwoOp with dl dr; [exact Ea' | |];
        eapply deep_copy_more_fuel; eauto.
    + apply (allocates_weaken _ _ _ _
               (derivative_Product_step ord n h a l r _ _ Ea Hl Hr)).
      intros q new (a' & q1 & q2 & dl & dr & -> & Ea' & E1 & E2 & Dl & Dr).
      assert (Cl : deep_copy (2 * n) (h ++ new) l = Done tl)
        by (apply deep_copy_mono with n; [exact El | lia]).
      assert (Cr : deep_copy (2 * n) (h ++ new) r = Done tr)
        by (apply deep_copy_mono with n; [exact Er | lia]).
      apply deep_copy_TwoOp with (ptr q1) (ptr q2); [exact Ea' | |].
      * now apply deep_copy_TwoOp with l dr.
      * now apply deep_copy_TwoOp with dl r.
Qed.

(** [Product::derivative] on children that reach well-formed trees. *)
Lemma derivative_Product_allocates (ord : argument_order) (n : nat)
    (h : heap) (a : address) (l r : shared_ptr)
    (tl tr : Unique.unique_ptr) :
  h !! a = Some (TwoOp Product l r) ->
  deep_copy n h l = Done tl -> Unique.well_formed tl = true ->
  deep_copy n h r = Done tr -> Unique.well_formed tr = true ->
  allocates (derivative ord (S n) (ptr a)) h
    (fun q h' => exists a' q1 q2 dl dr,
       q = ptr a' /\
       h' !! a' = Some (TwoOp Sum (ptr q1) (ptr q2)) /\
       h' !! q1 = Some (TwoOp Product l dr) /\
       h' !! q2 = Some (TwoOp Product dl r) /\
       deep_copy (2 * n) h' dl = Done (Rules.arrow_derivative_rule tl) /\
       deep_copy (2 * n) h' dr = Done (Rules.arrow_derivative_rule tr)).
Proof.
  intros Ha El Wl Er Wr.
  apply derivative_Product_step; [exact Ha | |]; intros new;
    (apply derivative_refines; [now apply deep_copy_mono with n | assumption]).
Qed.

Lemma well_formed_copy (n : nat) (h : heap) (p : shared_ptr) :
  well_formed n h p = true ->
  exists t, deep_copy n h p = Done t /\ Unique.well_formed t = true.
Proof.
  unfold well_formed. destruct (deep_copy n h p) as [t| |];
    try discriminate. eauto.
Qed.

Lemma shared_text_copy (n : nat) (h : heap) (p : shared_ptr) t :
  deep_copy n h p = Done t -> text n h p = Unique.text t.
Proof.
  intros E. unfold text, Unique.text. now rewrite (shared_print_copy n h p t).
Qed.

(** In both downloadable programs a binary node prints as
    [(] left [op] right [)], at every depth. *)
Lemma shared_text_TwoOp (n : nat) (h : heap) (a : address)
    (cls : TwoOp_class) (l r : shared_ptr) (tl tr : Unique.unique_ptr) :
  h !! a = Some (TwoOp cls l r) ->
  deep_copy n h l = Done tl -> deep_copy n h r = Done tr ->
  text (S n) h (ptr a) =
  (sl ← text n h l; sr ← text n h r;
   Done ("(" +:+ sl +:+ String (op cls) (sr +:+ ")"))).
Proof.
  intros Ha El Er.
  rewrite (shared_text_copy (S n) h (ptr a) _
             (deep_copy_TwoOp n h a cls l r tl tr Ha El Er)).
  rewrite (shared_text_copy n h l tl El), (shared_text_copy n h r tr Er).
  rewrite unique_text_TwoOp. now destruct cls.
Qed.

(** A node with a null child: no operation returns normally. *)
Lemma shared_null_child_faults (h : heap) (a : address)
    (cls : TwoOp_class) (l r : shared_ptr) :
  h !! a = Some (TwoOp cls l r) -> l = nullptr \/ r = nullptr ->
  forall n,
    (forall x v, evaluate n h (ptr a) x <> Done v) /\
    (forall os w w', print n h (ptr a) os w <> Done w') /\
    (forall ord q, derivative ord n (ptr a) h <> Done q).
Proof.
  intros Ha Hnull n.
  assert (Ne : forall k x v, evaluate k h nullptr x <> Done v)
    by (intros [|k]; discriminate).
  assert (Np : forall k os w w', print k h nullptr os w <> Done w')
    by (intros [|k]; discriminate).
  assert (Nd : forall ord k h0 q, derivative ord k nullptr h0 <> Done q)
    by (intros ord [|k]; discriminate).
  destruct n as [|n]; [repeat split; discriminate|].
  repeat split.
  - intros x v E. simpl in E. rewrite Ha in E. simpl in E.
    apply bind_Done in E as (va & Ea & E).
    apply bind_Done in E as (vb & Eb & _).
    destruct Hnull as [-> | ->]; [exact (Ne _ _ _ Ea) | exact (Ne _ _ _ Eb)].
  - intros os w w' E. simpl in E. rewrite Ha in E. simpl in E.
    apply bind_Done in E as (w1 & E1 & E).
    apply bind_Done in E as (w2 & E2 & _).
    destruct Hnull as [-> | ->]; [exact (Np _ _ _ _ E1) | exact (Np _ _ _ _ E2)].
  - intros ord q E. simpl in E. rewrite Ha in E. simpl in E.
    destruct cls;
      apply bind_Done in E as ([[p1 p2] h1] & E & _);
      destruct ord; unfold both in E;
      apply bind_Done in E as ([x1 h2] & E1 & E);
      apply bind_Done in E as ([x2 h3] & E2 & _);
      try (apply bind_Done in E1 as ([y1 h4] & E1 & _));
      try (apply bind_Done in E2 as ([y2 h5] & E2 & _));
      destruct Hnull as [-> | ->];
      (exact (Nd _ _ _ _ E1) || exact (Nd _ _ _ _ E2)).
Qed.

End SharedFacts.

(** * The properties of the specification *)

Section Properties.
Local Open Scope float_scope.

Lemma float_19_is_not_60 : (19 : double) <> 60.
Proof.
  intros E. apply (f_equal (fun f => PrimFloat.eqb f 19)) in E.
  vm_compute in E. discriminate.
Qed.

Lemma float_5_is_not_6 : (5 : double) <> 6.
Proof.
  intros E. apply (f_equal (fun f => PrimFloat.eqb f 5)) in E.
  vm_compute in E. discriminate.
Qed.

(** What [TwoOp::evaluate] returns on a [Product] in the two
    downloadable programs: the sum of the children's values. *)
Lemma unique_Product_evaluate (l r : Unique.unique_ptr) (x : double) :
  Unique.evaluate (Unique.TwoOp Product l r) x =
  (a ← Unique.arrow_evaluate l x; b ← Unique.arrow_evaluate r x;
   Done (a + b)).
Proof. reflexivity. Qed.

Lemma shared_Product_evaluate (n : nat) (h : Shared.heap)
    (a : Shared.address) (l r : Shared.shared_ptr) (x : double) :
  h !! a = Some (Shared.TwoOp Product l r) ->
  Shared.evaluate (S n) h (Shared.ptr a) x =
  (va ← Shared.evaluate n h l x; vb ← Shared.evaluate n h r x;
   Done (va + vb)).
Proof. intros Ha. simpl. now rewrite Ha. Qed.

(** What [Product::evaluate] of the lesson returns: the product. *)
Lemma raw_Product_evaluate (l r : Raw.pointer) (x : double) :
  Raw.evaluate (Raw.TwoOp Product l r) x =
  (a ← Raw.arrow_evaluate l x; b ← Raw.arrow_evaluate r x; Done (a * b)).
Proof. reflexivity. Qed.

(** C1 (defect in the code).  Evaluating Product(l, r) should return
    the product of the children's values.  [Product::calc] of both
    downloadable programs returns [a+b]: Product(Constant(2),
    Constant(3)) evaluates to 5 in the exclusive-ownership program
    and, whatever the order of allocation, in the shared-ownership
    program, while the product of the children's values, which
    [Product::evaluate] of [block-2b.md] returns, is 6. *)
Theorem Product_evaluate_returns_the_sum :
  let e := r_TwoOp Product (r_Constant 2) (r_Constant 3) in
  Unique.arrow_evaluate (Unique.build e) 0 = Done 5 /\
  (forall ord, exists p h,
      Shared.build ord e [] = Done (p, h) /\
      Shared.evaluate 2 h p 0 = Done 5) /\
  Raw.arrow_evaluate (Raw.build e) 0 = Done 6 /\
  (2 * 3 : double) = 6 /\ (5 : double) <> 6.
Proof.
  cbv zeta. split; [|split; [|split; [|split]]]; try reflexivity.
  - intros []; eexists _, _; split; reflexivity.
  - exact float_5_is_not_6.
Qed.

(** C3 (defect in the code).  Every binary node should print inside
    parentheses, [Product] included.  The final [TwoOp::print] does
    so; [Product::print] of [block-2b.md] (lines 166-170) writes the
    two children around ['*'] and no parentheses: Product(Constant(4),
    Variable()) prints as [4*x] there and as [(4*x)] in the
    downloadable programs. *)
Theorem raw_Product_print_has_no_parentheses :
  let e := r_TwoOp Product (r_Constant 4) r_Variable in
  Raw.text (H := default_format) (Raw.build e) = Done "4*x"%string /\
  Unique.text (H := default_format) (Unique.build e) = Done "(4*x)"%string /\
  Raw.text (H := default_format)
    (Raw.build (r_TwoOp Sum (r_Constant 4) r_Variable)) = Done "(4+x)"%string.
Proof. cbv zeta. split; [|split]; vm_compute; reflexivity. Qed.

(** C5 (defect in the code).  Product(Constant(4), Sum(Constant(5),
    Variable())) prints as [(4*(5+x))] in both downloadable programs,
    but [evaluate] at 10 returns 19, not 60: [Product::calc] adds (the
    defect of C1). *)
Theorem main_tree_evaluates_to_19 :
  Unique.text (H := default_format) Unique.main_e = Done "(4*(5+x))"%string /\
  Unique.arrow_evaluate Unique.main_e 10 = Done 19 /\
  (forall ord, exists e h,
      Shared.build ord main_recipe [] = Done (e, h) /\
      Shared.text (H := default_format) 3 h e = Done "(4*(5+x))"%string /\
      Shared.evaluate 3 h e 10 = Done 19) /\
  (19 : double) <> 60 /\ (4 * (5 + 10) : double) = 60.
Proof.
  split; [|split; [|split; [|split]]].
  - vm_compute; reflexivity.
  - vm_compute; reflexivity.
  - intros []; eexists _, _; (split; [reflexivity|]);
      split; vm_compute; reflexivity.
  - exact float_19_is_not_60.
  - reflexivity.
Qed.

(** The first three scenarios of the specification, on the
    shared-ownership program (in either order of allocation):
    Constant(5.6) (the double nearest to 5.6, written in hexadecimal
    below) prints as [5.6], evaluates to itself everywhere and its
    derivative is Constant(0); Variable() prints as [x], evaluates to 10
    at 10 and its derivative is Constant(1); Sum(Variable(),
    Constant(5)) prints as [(x+5)], evaluates to 15 at 10, and its
    derivative is Sum(Constant(1), Constant(0)), which evaluates to 1
    everywhere. *)
Theorem leaf_and_Sum_scenarios (ord : Shared.argument_order) :
  (exists e h,
      Shared.build ord (r_Constant 0x1.6666666666666p+2) [] = Done (e, h) /\
      Shared.text (H := default_format) 1 h e = Done "5.6"%string /\
      (forall x, Shared.evaluate 1 h e x = Done 0x1.6666666666666p+2) /\
      exists d h',
        Shared.derivative ord 1 e h = Done (d, h') /\
        Shared.deep_copy 1 h' d =
          Done (Unique.make_unique (Unique.Constant 0))) /\
  (exists e h,
      Shared.build ord r_Variable [] = Done (e, h) /\
      Shared.text (H := default_format) 1 h e = Done "x"%string /\
      Shared.evaluate 1 h e 10 = Done 10 /\
      exists d h',
        Shared.derivative ord 1 e h = Done (d, h') /\
        Shared.deep_copy 1 h' d =
          Done (Unique.make_unique (Unique.Constant 1))) /\
  (exists e h,
      Shared.build ord (r_TwoOp Sum r_Variable (r_Constant 5)) [] =
        Done (e, h) /\
      Shared.text (H := default_format) 2 h e = Done "(x+5)"%string /\
      Shared.evaluate 2 h e 10 = Done 15 /\
      exists d h',
        Shared.derivative ord 2 e h = Done (d, h') /\
        Shared.deep_copy 2 h' d =
          Done (Unique.make_unique (Unique.TwoOp Sum
                  (Unique.make_unique (Unique.Constant 1))
                  (Unique.make_unique (Unique.Constant 0)))) /\
        forall x, Shared.evaluate 2 h' d x = Done 1).
Proof.
  split; [|split]; destruct ord; eexists _, _;
    (split; [reflexivity|]); (split; [vm_compute; reflexivity|]);
    (split; [reflexivity|]); eexists _, _;
    (split; [reflexivity|]); repeat split.
Qed.

(** What the two [main] functions write to [std::cout]. *)
Lemma unique_main_output :
  (w ← Unique.main (H := default_format) ∅; Done (written w cout)) =
  Done ("f(x) = (4*(5+x))" +:+ String "010" "f(10) = 19" +:+ String "010" "")%string.
Proof. vm_compute. reflexivity. Qed.

Lemma shared_main_output (ord : Shared.argument_order) :
  (w ← Shared.main (H := default_format) ord 5 ∅; Done (written w cout)) =
  Done ("(4*(5+x))=19" +:+ String "010" "((4*(0+1))+(0*(5+x)))")%string.
Proof. destruct ord; vm_compute; reflexivity. Qed.

End Properties.

Section GeneralProperties.
Import Shared.
Context `{DoubleFormat}.

Lemma build_null_is_null (ord : argument_order) (e : recipe) (h : heap) :
  allocates (build ord e) h (fun p _ => e = r_nullptr -> p = nullptr).
Proof.
  destruct (build_allocates ord e h) as (p & new & E & _).
  exists p, new. split; [exact E|]. intros ->. simpl in E. now inversion E.
Qed.

(** C2, as stated, fails: the exclusive-ownership [Expression]
    declares no [derivative], so not every operation is supported in
    both variants. *)
Lemma unique_variant_has_no_derivative :
  ~ (forall o : operation,
       In o Unique.Expression_interface /\ In o Shared.Expression_interface).
Proof.
  intros Hall. destruct (Hall op_derivative) as [Hin _].
  simpl in Hin. intuition discriminate.
Qed.

(** C2 (amended).  Both variants support [evaluate] and [print]; only
    the shared-ownership variant supports [derivative].  For any tree
    built the same way (the same construction expression, read with
    [make_unique] or with [make_shared], in either order of
    allocation and in any heap), [evaluate] and [print] give the same
    results in the two variants. *)
Theorem ownership_variants_agree :
  (forall o : operation, o <> op_derivative ->
     In o Unique.Expression_interface /\ In o Shared.Expression_interface) /\
  In op_derivative Shared.Expression_interface /\
  ~ In op_derivative Unique.Expression_interface /\
  forall (ord : argument_order) (e : recipe) (h : heap),
  exists p new,
    build ord e h = Done (p, h ++ new) /\
    forall n, (height e < n)%nat ->
      (forall x, evaluate n (h ++ new) p x =
                 Unique.arrow_evaluate (Unique.build e) x) /\
      (forall os w, print n (h ++ new) p os w =
                    Unique.arrow_print (Unique.build e) os w).
Proof.
  split; [|split; [|split]].
  - intros [] Ho; simpl; intuition congruence.
  - simpl. auto.
  - simpl. intuition discriminate.
  - intros ord e h.
    destruct (build_allocates ord e h) as (p & new & E & Hcopy).
    exists p, new. split; [exact E|]. intros n Hn. split.
    + intros x. now apply shared_evaluate_copy, Hcopy.
    + intros os w. now apply shared_print_copy, Hcopy.
Qed.

(** C4, as stated, fails: [Sum(nullptr, nullptr)] is built in both
    variants, the malformed node exists, and the failure comes later,
    inside [evaluate]. *)
Lemma null_children_are_accepted :
  build left_to_right (r_TwoOp Sum r_nullptr r_nullptr) [] =
    Done (ptr 0, [TwoOp Sum nullptr nullptr]) /\
  evaluate 2 [TwoOp Sum nullptr nullptr] (ptr 0) 10 = Fault /\
  Unique.build (r_TwoOp Sum r_nullptr r_nullptr) =
    Unique.make_unique (Unique.TwoOp Sum Unique.nullptr Unique.nullptr) /\
  Unique.arrow_evaluate
    (Unique.build (r_TwoOp Sum r_nullptr r_nullptr)) 10 = Fault.
Proof. repeat split. Qed.

(** C4 (amended).  The combinator constructors do not validate their
    children.  Building a [Sum] or a [Product] with a null child
    succeeds in both variants, in every heap and order of allocation,
    and the node exists with the null pointer stored in it; no
    operation called on that node returns normally. *)
Theorem constructors_accept_null_children
    (ord : argument_order) (cls : TwoOp_class) (l r : recipe) (h : heap) :
  l = r_nullptr \/ r = r_nullptr ->
  (exists a pl pr new,
      build ord (r_TwoOp cls l r) h = Done (ptr a, h ++ new) /\
      (h ++ new) !! a = Some (TwoOp cls pl pr) /\
      (pl = nullptr \/ pr = nullptr) /\
      forall n,
        (forall x v, evaluate n (h ++ new) (ptr a) x <> Done v) /\
        (forall os w w', print n (h ++ new) (ptr a) os w <> Done w') /\
        (forall ord' q, derivative ord' n (ptr a) (h ++ new) <> Done q)) /\
  (exists pl pr,
      Unique.build (r_TwoOp cls l r) =
        Unique.make_unique (Unique.TwoOp cls pl pr) /\
      (pl = Unique.nullptr \/ pr = Unique.nullptr) /\
      (forall x v,
          Unique.arrow_evaluate (Unique.build (r_TwoOp cls l r)) x <> Done v) /\
      (forall os w w',
          Unique.arrow_print (Unique.build (r_TwoOp cls l r)) os w <> Done w')).
Proof.
  intros Hnull. split.
  - destruct (allocates_both ord (build ord l) (build ord r) h
                (fun p _ => l = r_nullptr -> p = nullptr)
                (fun p _ => r = r_nullptr -> p = nullptr))
      as ([pl pr] & new & E & Hl & Hr).
    + intros p h0 new Hp. exact Hp.
    + intros p h0 new Hp. exact Hp.
    + intros new. apply build_null_is_null.
    + intros new. apply build_null_is_null.
    + simpl in Hl, Hr.
      assert (Hp : pl = nullptr \/ pr = nullptr) by (destruct Hnull; auto).
      exists (length (h ++ new)), pl, pr, (new ++ [TwoOp cls pl pr]).
      rewrite app_assoc. split; [|split; [|split]].
      * simpl. rewrite E. reflexivity.
      * apply lookup_fresh.
      * exact Hp.
      * apply shared_null_child_faults with cls pl pr;
          [apply lookup_fresh | exact Hp].
  - exists (Unique.build l), (Unique.build r).
    assert (Hp : Unique.build l = Unique.nullptr \/
                 Unique.build r = Unique.nullptr)
      by (destruct Hnull as [-> | ->]; auto).
    split; [reflexivity|]. split; [exact Hp|].
    apply (unique_null_child_faults cls _ _ Hp).
Qed.

(** C6.  On a [Product] node whose children reach well-formed trees,
    [derivative] returns a new [Sum] of two new [Product] nodes: the
    first holds the pointer [l] of the original node and the
    derivative of [r], the second the derivative of [l] and the
    pointer [r] of the original node.  [l] and [r] are the original
    objects (the same addresses, reaching the same trees as before),
    and the result reaches
    Sum(Product(l, d r), Product(d l, r)) with nothing simplified. *)
Theorem Product_derivative_is_the_product_rule
    (ord : argument_order) (n : nat) (h : heap) (a : address)
    (l r : shared_ptr) (tl tr : Unique.unique_ptr) :
  h !! a = Some (TwoOp Product l r) ->
  deep_copy n h l = Done tl -> Unique.well_formed tl = true ->
  deep_copy n h r = Done tr -> Unique.well_formed tr = true ->
  exists a' q1 q2 dl dr new,
    derivative ord (S n) (ptr a) h = Done (ptr a', h ++ new) /\
    (h ++ new) !! a' = Some (TwoOp Sum (ptr q1) (ptr q2)) /\
    (h ++ new) !! q1 = Some (TwoOp Product l dr) /\
    (h ++ new) !! q2 = Some (TwoOp Product dl r) /\
    deep_copy (2 * n) (h ++ new) dl = Done (Rules.arrow_derivative_rule tl) /\
    deep_copy (2 * n) (h ++ new) dr = Done (Rules.arrow_derivative_rule tr) /\
    deep_copy n (h ++ new) l = Done tl /\
    deep_copy n (h ++ new) r = Done tr /\
    deep_copy (2 * S n) (h ++ new) (ptr a') =
      Done (Unique.make_unique (Unique.TwoOp Sum
        (Unique.make_unique
           (Unique.TwoOp Product tl (Rules.arrow_derivative_rule tr)))
        (Unique.make_unique
           (Unique.TwoOp Product (Rules.arrow_derivative_rule tl) tr)))).
Proof.
  intros Ha El Wl Er Wr.
  destruct (derivative_Product_allocates ord n h a l r tl tr Ha El Wl Er Wr)
    as (q & new & E & a' & q1 & q2 & dl & dr & -> & Ea' & E1 & E2 & Dl & Dr).
  exists a', q1, q2, dl, dr, new.
  assert (Cl : deep_copy n (h ++ new) l = Done tl)
    by now apply deep_copy_mono with n.
  assert (Cr : deep_copy n (h ++ new) r = Done tr)
    by now apply deep_copy_mono with n.
  repeat (split; [assumption|]).
  replace (2 * S n)%nat with (S (S (2 * n))) by lia.
  apply deep_copy_TwoOp with (ptr q1) (ptr q2); [exact Ea' | |].
  - apply deep_copy_TwoOp with l dr; [exact E1 | | exact Dr].
    apply deep_copy_more_fuel with n; [exact Cl | lia].
  - apply deep_copy_TwoOp with dl r; [exact E2 | exact Dl |].
    apply deep_copy_more_fuel with n; [exact Cr | lia].
Qed.

(** C8.  On a finite tree without null children, [evaluate] (at every
    [x]), [print] (to every stream) and [derivative] (in either order
    of allocation) return: with the budget that reaches the whole
    tree, or any larger one, none of them faults or starves. *)
Theorem operations_are_total (n : nat) (h : heap) (p : shared_ptr) :
  well_formed n h p = true ->
  forall m, (n <= m)%nat ->
    (forall x, exists v, evaluate m h p x = Done v) /\
    (forall os w, exists w', print m h p os w = Done w') /\
    (forall ord, exists q h', derivative ord m p h = Done (q, h')).
Proof.
  intros Hwf m Hm. apply well_formed_copy in Hwf as (t & E & Wt).
  apply deep_copy_more_fuel with (m := m) in E; [|exact Hm].
  split; [|split].
  - intros x. rewrite (shared_evaluate_copy m h p t x E).
    now apply unique_evaluate_total.
  - intros os w. rewrite (shared_print_copy m h p t os w E).
    rewrite unique_print_text.
    destruct (unique_text_total t Wt) as [s ->]. simpl. eauto.
  - intros ord.
    destruct (derivative_refines ord m h p t E Wt) as (q & new & Ed & _).
    eauto.
Qed.

(** C7.  [evaluate] and [print] only read the heap, and [derivative]
    only allocates: after [derivative] on a well-formed [Product]
    node every object that existed is unchanged, the original node
    still holds [l] and [r], the new [Product] nodes hold the same
    two pointers, and [l], [r] and the original node evaluate and
    print exactly as before the call. *)
Theorem derivative_leaves_the_tree_unchanged
    (ord : argument_order) (n : nat) (h : heap) (a : address)
    (l r : shared_ptr) :
  h !! a = Some (TwoOp Product l r) ->
  well_formed n h (ptr a) = true ->
  exists a' q1 q2 dl dr new,
    derivative ord n (ptr a) h = Done (ptr a', h ++ new) /\
    (forall b o, h !! b = Some o -> (h ++ new) !! b = Some o) /\
    (h ++ new) !! a = Some (TwoOp Product l r) /\
    (h ++ new) !! a' = Some (TwoOp Sum (ptr q1) (ptr q2)) /\
    (h ++ new) !! q1 = Some (TwoOp Product l dr) /\
    (h ++ new) !! q2 = Some (TwoOp Product dl r) /\
    forall p, p = l \/ p = r \/ p = ptr a ->
      forall m, (n <= m)%nat ->
        (forall x, evaluate m (h ++ new) p x = evaluate m h p x /\
                   exists v, evaluate m h p x = Done v) /\
        (forall os w, print m (h ++ new) p os w = print m h p os w /\
                      exists w', print m h p os w = Done w').
Proof.
  intros Ha Hwf. apply well_formed_copy in Hwf as (t & E & Wt).
  destruct n as [|n]; [discriminate|].
  pose proof E as E0. simpl in E. rewrite Ha in E.
  apply bind_Done in E as (tl & El & E).
  apply bind_Done in E as (tr & Er & E).
  inversion E; subst t; clear E.
  simpl in Wt. apply andb_prop in Wt as [Wl Wr].
  destruct (derivative_Product_allocates ord n h a l r tl tr Ha El Wl Er Wr)
    as (q & new & Ed & a' & q1 & q2 & dl & dr & -> & Ea' & E1 & E2 & _).
  exists a', q1, q2, dl, dr, new.
  split; [exact Ed|]. split; [intros b o; apply lookup_extend|].
  split; [now apply lookup_extend|].
  repeat (split; [assumption|]).
  assert (Hcopies : forall p, p = l \/ p = r \/ p = ptr a ->
            exists tp, deep_copy (S n) h p = Done tp /\
                       Unique.well_formed tp = true).
  { intros p [-> | [-> | ->]].
    - exists tl. split; [|exact Wl].
      apply deep_copy_more_fuel with n; [exact El | lia].
    - exists tr. split; [|exact Wr].
      apply deep_copy_more_fuel with n; [exact Er | lia].
    - eexists. split; [exact E0|]. simpl. now rewrite Wl, Wr. }
  intros p Hp m Hm. destruct (Hcopies p Hp) as (tp & Ep & Wp).
  assert (Eh : deep_copy m h p = Done tp)
    by now apply deep_copy_more_fuel with (S n).
  assert (Eh' : deep_copy m (h ++ new) p = Done tp)
    by now apply deep_copy_mono with (S n).
  split.
  - intros x.
    rewrite (shared_evaluate_copy m _ p tp x Eh'),
            (shared_evaluate_copy m _ p tp x Eh).
    split; [reflexivity|]. now apply unique_evaluate_total.
  - intros os w.
    rewrite (shared_print_copy m _ p tp os w Eh'),
            (shared_print_copy m _ p tp os w Eh).
    split; [reflexivity|]. rewrite unique_print_text.
    destruct (unique_text_total tp Wp) as [s ->]. simpl. eauto.
Qed.

(** C9.  Two calls of [derivative] on the same well-formed tree, the
    second after the first (and in whatever order each allocates),
    both return and leave the tree as it was; the two results reach
    the same tree, and [evaluate] and [print] agree on them for every
    argument and every stream. *)
Theorem derivative_is_deterministic
    (ord1 ord2 : argument_order) (n : nat) (h : heap) (p : shared_ptr) :
  well_formed n h p = true ->
  exists q1 new1 q2 new2 d,
    derivative ord1 n p h = Done (q1, h ++ new1) /\
    derivative ord2 n p (h ++ new1) = Done (q2, (h ++ new1) ++ new2) /\
    deep_copy n ((h ++ new1) ++ new2) p = deep_copy n h p /\
    deep_copy (2 * n) ((h ++ new1) ++ new2) q1 = Done d /\
    deep_copy (2 * n) ((h ++ new1) ++ new2) q2 = Done d /\
    (forall x,
        evaluate (2 * n) ((h ++ new1) ++ new2) q1 x =
        evaluate (2 * n) ((h ++ new1) ++ new2) q2 x /\
        exists v, evaluate (2 * n) ((h ++ new1) ++ new2) q1 x = Done v) /\
    (forall os w,
        print (2 * n) ((h ++ new1) ++ new2) q1 os w =
        print (2 * n) ((h ++ new1) ++ new2) q2 os w /\
        exists w', print (2 * n) ((h ++ new1) ++ new2) q1 os w = Done w').
Proof.
  intros Hwf. apply well_formed_copy in Hwf as (t & E & Wt).
  destruct (derivative_refines ord1 n h p t E Wt) as (q1 & new1 & E1 & D1).
  assert (E' : deep_copy n (h ++ new1) p = Done t)
    by now apply deep_copy_mono with n.
  destruct (derivative_refines ord2 n (h ++ new1) p t E' Wt)
    as (q2 & new2 & E2 & D2).
  apply (stable_deep_copy (2 * n) _ q1 _ new2) in D1.
  pose proof (derivative_rule_well_formed t Wt) as Wd.
  assert (E'' : deep_copy n ((h ++ new1) ++ new2) p = deep_copy n h p)
    by (rewrite E; now apply deep_copy_mono with n).
  exists q1, new1, q2, new2, (Rules.arrow_derivative_rule t).
  repeat (split; [assumption|]). split.
  - intros x.
    rewrite (shared_evaluate_copy _ _ q1 _ x D1),
            (shared_evaluate_copy _ _ q2 _ x D2).
    split; [reflexivity|]. now apply unique_evaluate_total.
  - intros os w.
    rewrite (shared_print_copy _ _ q1 _ os w D1),
            (shared_print_copy _ _ q2 _ os w D2).
    split; [reflexivity|]. rewrite unique_print_text.
    destruct (unique_text_total _ Wd) as [s ->]. simpl. eauto.
Qed.

(** C10.  [os << e] in the exclusive-ownership program does what
    [e.print(os)] does and returns [os] itself, for every expression,
    stream and stream contents: when [print] returns, the characters
    of [e] are appended to [os] and every other stream is as it was;
    so [os << e << e2] prints [e] and then [e2] to the same stream. *)
Theorem insert_prints_and_returns_the_stream
    (e : Unique.Expression) (os : ostream) (w : sinks) :
  Unique.insert os e w = (w' ← Unique.print e os w; Done (os, w')) /\
  (forall w', Unique.print e os w = Done w' ->
     Unique.insert os e w = Done (os, w') /\
     exists s, Unique.text (Unique.make_unique e) = Done s /\
               written w' os = written w os +:+ s /\
               forall os', os <> os' -> written w' os' = written w os') /\
  (forall e2,
     ('(os', w') ← Unique.insert os e w; Unique.insert os' e2 w') =
     (w1 ← Unique.print e os w; w2 ← Unique.print e2 os w1;
      Done (os, w2))).
Proof.
  split; [reflexivity|]. split.
  - intros w' Ew'. unfold Unique.insert. rewrite Ew'.
    split; [reflexivity|].
    pose proof (unique_print_text (Unique.make_unique e) os w) as Ep.
    simpl in Ep. rewrite Ew' in Ep.
    destruct (Unique.text (Unique.make_unique e)) as [s| |];
      try discriminate.
    inversion Ep; subst w'. exists s. split; [reflexivity|].
    split; [apply written_put|]. intros os' Hne.
    now apply written_put_other.
  - intros e2. unfold Unique.insert.
    destruct (Unique.print e os w) as [w1| |]; reflexivity.
Qed.

(** X1.  In both downloadable programs a binary node prints as
    [(], the left child, the operator of its class, the right child,
    [)]; the children are arbitrary, so this holds at every depth. *)
Theorem TwoOp_print_is_parenthesized (cls : TwoOp_class) :
  (forall l r : Unique.unique_ptr,
      Unique.text (Unique.make_unique (Unique.TwoOp cls l r)) =
      (sl ← Unique.text l; sr ← Unique.text r;
       Done ("(" +:+ sl +:+ String (Unique.op cls) (sr +:+ ")")))) /\
  (forall n h a l r tl tr,
      h !! a = Some (TwoOp cls l r) ->
      deep_copy n h l = Done tl -> deep_copy n h r = Done tr ->
      text (S n) h (ptr a) =
      (sl ← text n h l; sr ← text n h r;
       Done ("(" +:+ sl +:+ String (op cls) (sr +:+ ")")))) /\
  Unique.op Sum = "+"%char /\ Unique.op Product = "*"%char /\
  op Sum = "+"%char /\ op Product = "*"%char.
Proof.
  split; [|split; [|repeat split]].
  - intros l r. apply unique_text_TwoOp.
  - intros n h a l r tl tr. apply shared_text_TwoOp.
Qed.

(** X2.  The shared-ownership [derivative] follows the four rules
    (constant, variable, sum, product): on a pointer that reaches a
    well-formed tree [t] it returns, having only allocated, a pointer
    that reaches the tree the rules give for [t], unsimplified. *)
Theorem derivative_follows_the_rules
    (ord : argument_order) (n : nat) (h : heap) (p : shared_ptr)
    (t : Unique.unique_ptr) :
  deep_copy n h p = Done t -> Unique.well_formed t = true ->
  exists q new,
    derivative ord n p h = Done (q, h ++ new) /\
    deep_copy (2 * n) (h ++ new) q = Done (Rules.arrow_derivative_rule t) /\
    Unique.well_formed (Rules.arrow_derivative_rule t) = true.
Proof.
  intros E Wt.
  destruct (derivative_refines ord n h p t E Wt) as (q & new & Ed & D).
  exists q, new. repeat split; try assumption.
  now apply derivative_rule_well_formed.
Qed.

End GeneralProperties.

(** * Further properties of the exclusive-ownership program *)

Section UniqueMore.
Import Unique.
Context `{DoubleFormat}.

Lemma unique_evaluate_null_faults (p : unique_ptr) (x : double) :
  well_formed p = false -> arrow_evaluate p x = Fault.
Proof.
  induction p as [|c| |cls l r IHl IHr] using unique_ptr_induction;
    simpl; intros Hwf; try discriminate; [reflexivity|].
  destruct (well_formed l) eqn:Wl.
  - destruct (unique_evaluate_total l x Wl) as [a ->]. simpl.
    simpl in Hwf. now rewrite (IHr Hwf).
  - now rewrite IHl.
Qed.

Lemma unique_print_total (p : unique_ptr) (os : ostream) (w : sinks) :
  well_formed p = true -> exists w', arrow_print p os w = Done w'.
Proof.
  intros Hwf. rewrite unique_print_text.
  destruct (unique_text_total p Hwf) as [s ->]. simpl. eauto.
Qed.

Lemma unique_print_null_faults (p : unique_ptr) :
  well_formed p = false -> forall os w, arrow_print p os w = Fault.
Proof.
  induction p as [|c| |cls l r IHl IHr] using unique_ptr_induction;
    simpl; intros Hwf os w; try discriminate; [reflexivity|].
  destruct (well_formed l) eqn:Wl.
  - destruct (unique_print_total l os (put_char os "(" w) Wl) as [w1 ->].
    simpl. simpl in Hwf. now rewrite (IHr Hwf).
  - now rewrite IHl.
Qed.

(** X3.  In the exclusive-ownership program [evaluate] and [print]
    return exactly on the trees without a null pointer: a null pointer
    anywhere in the tree, at any depth, makes both of them fault (they
    visit every node), and without one both return, at every argument
    and for every stream. *)
Theorem unique_operations_return_iff_well_formed (p : unique_ptr) :
  (forall x, if well_formed p
             then exists v, arrow_evaluate p x = Done v
             else arrow_evaluate p x = Fault) /\
  (forall os w, if well_formed p
                then exists w', arrow_print p os w = Done w'
                else arrow_print p os w = Fault).
Proof.
  destruct (well_formed p) eqn:Wp; split; intros.
  - now apply unique_evaluate_total.
  - now apply unique_print_total.
  - now apply unique_evaluate_null_faults.
  - now apply unique_print_null_faults.
Qed.

End UniqueMore.

Section PrintMore.
Import Shared.
Context `{DoubleFormat}.



End PrintMore.

(** * Parentheses of the printed text *)

Section Parentheses.
Import Nesting.
Context `{DoubleFormat}.

Lemma depth_after_app (s1 s2 : string) :
  forall d, depth_after d (s1 +:+ s2) =
            (d' ← depth_after d s1; depth_after d' s2).
Proof.
  induction s1 as [|c s1 IH]; intros d; [reflexivity|].
  rewrite string_app_cons. simpl.
  destruct (Ascii.eqb c "("); [apply IH|].
  destruct (Ascii.eqb c ")"); [|apply IH].
  destruct d; [reflexivity | apply IH].
Qed.

Lemma depth_after_plain (s : string) :
  plain s = true -> forall d, depth_after d s = Some d.
Proof.
  induction s as [|c s IH]; intros Hp d; [reflexivity|].
  simpl in *. destruct (Ascii.eqb c "("); [discriminate|].
  destruct (Ascii.eqb c ")"); [discriminate|]. now apply IH.
Qed.

Lemma depth_after_op (cls : TwoOp_class) (s : string) (d : nat) :
  depth_after d (String (Unique.op cls) s) = depth_after d s.
Proof. now destruct cls. Qed.

Lemma unique_text_nested (p : Unique.unique_ptr) :
  plain_numerals p = true ->
  forall s, Unique.text p = Done s -> forall d, depth_after d s = Some d.
Proof.
  induction p as [|c| |cls l r IHl IHr] using unique_ptr_induction;
    intros Hp s Es d.
  - discriminate.
  - inversion Es; subst s. now apply depth_after_plain.
  - inversion Es; subst s. reflexivity.
  - simpl in Hp. apply andb_prop in Hp as [Pl Pr].
    rewrite unique_text_TwoOp in Es.
    apply bind_Done in Es as (sl & El & Es).
    apply bind_Done in Es as (sr & Er & Es).
    inversion Es; subst s; clear Es.
    change (depth_after (S d)
              (sl +:+ String (Unique.op cls) (sr +:+ ")")) = Some d).
    rewrite depth_after_app, (IHl Pl sl El (S d)).
    change (depth_after (S d) (String (Unique.op cls) (sr +:+ ")")) = Some d).
    rewrite depth_after_op, depth_after_app, (IHr Pr sr Er (S d)).
    reflexivity.
Qed.

(** X5.  When the numerals of its constants contain no parenthesis, the
    text the downloadable programs print for a tree is well nested:
    read from left to right, no closing parenthesis comes before its
    opening one, and all are closed at the end.  This holds for the
    text of the exclusive-ownership tree and for the text printed
    through any shared-ownership pointer that reaches the same tree. *)
Theorem printed_parentheses_are_nested (p : Unique.unique_ptr) (s : string) :
  plain_numerals p = true ->
  Unique.text p = Done s ->
  depth_after 0 s = Some 0%nat /\
  forall n h q, Shared.deep_copy n h q = Done p ->
    Shared.text n h q = Done s.
Proof.
  intros Hp Es. split.
  - now apply (unique_text_nested p Hp s Es).
  - intros n h q Eq. now rewrite (shared_text_copy n h q p Eq).
Qed.

End Parentheses.

(** * Derivatives of sums *)

Section SumsOnly.
Import Shape.

Lemma derivative_rule_variable_free (t : Unique.unique_ptr) :
  product_free t = true ->
  variable_free (Rules.arrow_derivative_rule t) = true.
Proof.
  induction t as [|c| |cls l r IHl IHr] using unique_ptr_induction;
    simpl; intros Hp; try reflexivity.
  destruct cls; [|discriminate].
  apply andb_prop in Hp as [Pl Pr]. simpl. now rewrite IHl, IHr.
Qed.

Lemma variable_free_evaluate (t : Unique.unique_ptr) (x y : double) :
  variable_free t = true ->
  Unique.arrow_evaluate t x = Unique.arrow_evaluate t y.
Proof.
  induction t as [|c| |cls l r IHl IHr] using unique_ptr_induction;
    simpl; intros Hv; try reflexivity; try discriminate.
  apply andb_prop in Hv as [Vl Vr]. now rewrite (IHl Vl), (IHr Vr).
Qed.

(** X6.  The derivative of an expression built from constants,
    variables and sums only contains no variable: [derivative] returns
    a pointer whose value is the same at every argument. *)
Theorem derivative_of_sums_is_constant
    (ord : Shared.argument_order) (n : nat) (h : Shared.heap)
    (p : Shared.shared_ptr) (t : Unique.unique_ptr) :
  Shared.deep_copy n h p = Done t ->
  Unique.well_formed t = true -> product_free t = true ->
  exists q new v,
    Shared.derivative ord n p h = Done (q, h ++ new) /\
    forall x, Shared.evaluate (2 * n) (h ++ new) q x = Done v.
Proof.
  intros E Wt Pt.
  destruct (derivative_refines ord n h p t E Wt) as (q & new & Ed & D).
  pose proof (derivative_rule_well_formed t Wt) as Wd.
  destruct (unique_evaluate_total _ 0%float Wd) as [v Ev].
  exists q, new, v. split; [exact Ed|]. intros x.
  rewrite (shared_evaluate_copy _ _ q _ x D), <- Ev.
  now apply variable_free_evaluate, derivative_rule_variable_free.
Qed.

End SumsOnly.

(** * What [derivative] allocates *)

Section Allocation.
Import Shared Effects Shape Order.

Lemma deep_copy_prefix (n : nat) (h h' : heap) (p : shared_ptr) t :
  deep_copy n h p = Done t -> h `prefix_of` h' -> deep_copy n h' p = Done t.
Proof. intros E [ext ->]. now apply deep_copy_mono with n. Qed.

Lemma prefix_snoc (h : heap) (o : Expression) : h `prefix_of` h ++ [o].
Proof. now exists [o]. Qed.

Lemma ensures_both {A B : Type} (ord : argument_order)
    (fa : heap -> outcome (A * heap)) (fb : heap -> outcome (B * heap))
    (h : heap) (QA : heap -> A -> heap -> Prop)
    (QB : heap -> B -> heap -> Prop) :
  (forall h0, h `prefix_of` h0 -> ensures fa h0 (QA h0)) ->
  (forall h0, h `prefix_of` h0 -> ensures fb h0 (QB h0)) ->
  ensures (both ord fa fb) h
    (fun ab h' => exists h1,
       h `prefix_of` h1 /\ h1 `prefix_of` h' /\
       ((QA h ab.1 h1 /\ QB h1 ab.2 h') \/
        (QB h ab.2 h1 /\ QA h1 ab.1 h'))).
Proof.
  intros Ha Hb [a b] h' E. destruct ord; unfold both in E.
  - apply bind_Done in E as ([a1 h1] & E1 & E).
    apply bind_Done in E as ([b1 h2] & E2 & E).
    inversion E; subst a1 b1 h2; clear E.
    destruct (Ha h (reflexivity _) a h1 E1) as (P1 & Q1).
    destruct (Hb h1 P1 b h' E2) as (P2 & Q2).
    split; [now transitivity h1|]. exists h1. auto.
  - apply bind_Done in E as ([b1 h1] & E1 & E).
    apply bind_Done in E as ([a1 h2] & E2 & E).
    inversion E; subst a1 b1 h2; clear E.
    destruct (Hb h (reflexivity _) b h1 E1) as (P1 & Q1).
    destruct (Ha h1 P1 a h' E2) as (P2 & Q2).
    split; [now transitivity h1|]. exists h1. auto.
Qed.

Lemma ensures_then_make_shared {A : Type}
    (f : heap -> outcome (A * heap)) (g : A -> Expression) (h : heap)
    (Q : A -> heap -> Prop) :
  ensures f h Q ->
  ensures (fun h => '(a, h) ← f h; make_shared (g a) h) h
    (fun q h' => exists a h1,
       h `prefix_of` h1 /\ Q a h1 /\
       h' = h1 ++ [g a] /\ q = ptr (length h1)).
Proof.
  intros Hf q h' E.
  apply bind_Done in E as ([a h1] & E1 & E).
  destruct (Hf a h1 E1) as (P1 & Q1).
  inversion E; subst q h'; clear E.
  split; [transitivity h1; [exact P1 | apply prefix_snoc]|].
  exists a, h1. auto.
Qed.

(** The new objects of [derivative]: as many as calls of
    [std::make_shared], and the result is the newest of them. *)
Lemma derivative_new_objects (ord : argument_order) (n : nat) :
  forall h p t,
    deep_copy n h p = Done t ->
    ensures (derivative ord n p) h
      (fun q h' => length h' = length h + derivative_cost t /\
                   q = ptr (pred (length h'))).
Proof.
  induction n as [|n IH]; intros h p t E q h' Ed; [discriminate|].
  simpl in E, Ed. destruct p as [|a]; [discriminate|]. simpl in Ed.
  destruct (h !! a) as [o|] eqn:Ea; [|discriminate]. simpl in Ed.
  destruct o as [c| |cls l r].
  - inversion E; subst t. inversion Ed; subst q h'.
    split; [apply prefix_snoc|]. rewrite length_app. simpl.
    split; [reflexivity | f_equal; lia].
  - inversion E; subst t. inversion Ed; subst q h'.
    split; [apply prefix_snoc|]. rewrite length_app. simpl.
    split; [reflexivity | f_equal; lia].
  - apply bind_Done in E as (tl & El & E).
    apply bind_Done in E as (tr & Er & E).
    inversion E; subst t; clear E.
    assert (Hl : forall h0, h `prefix_of` h0 ->
              ensures (derivative ord n l) h0
                (fun _ h1 => length h1 = length h0 + derivative_cost tl)).
    { intros h0 P0 q0 h1 E0.
      destruct (IH h0 l tl (deep_copy_prefix _ _ _ _ _ El P0) q0 h1 E0)
        as (P1 & L & _). auto. }
    assert (Hr : forall h0, h `prefix_of` h0 ->
              ensures (derivative ord n r) h0
                (fun _ h1 => length h1 = length h0 + derivative_cost tr)).
    { intros h0 P0 q0 h1 E0.
      destruct (IH h0 r tr (deep_copy_prefix _ _ _ _ _ Er P0) q0 h1 E0)
        as (P1 & L & _). auto. }
    destruct cls.
    + apply bind_Done in Ed as ([[dl dr] h2] & Eb & Em).
      destruct (ensures_both ord _ _ h _ _ Hl Hr _ _ Eb)
        as (P2 & h1 & _ & _ & Hn).
      inversion Em; subst q h'; clear Em.
      split; [transitivity h2; [exact P2 | apply prefix_snoc]|].
      rewrite length_app. simpl. split; [|f_equal; lia].
      destruct Hn as [[L1 L2] | [L1 L2]]; simpl in *; lia.
    + apply bind_Done in Ed as ([[p1 p2] h2] & Eb & Em).
      pose proof (fun h0 P0 => ensures_then_make_shared _
                    (fun dr => TwoOp Product l dr) _ _ (Hr h0 P0)) as Ha.
      pose proof (fun h0 P0 => ensures_then_make_shared _
                    (fun dl => TwoOp Product dl r) _ _ (Hl h0 P0)) as Hb.
      destruct (ensures_both ord _ _ h _ _ Ha Hb _ _ Eb)
        as (P2 & h1 & _ & _ & Hn).
      inversion Em; subst q h'; clear Em.
      split; [transitivity h2; [exact P2 | apply prefix_snoc]|].
      rewrite length_app. simpl. split; [|f_equal; lia].
      destruct Hn as [[(x1 & m1 & _ & L1 & -> & _) (x2 & m2 & _ & L2 & -> & _)]
                     |[(x1 & m1 & _ & L1 & -> & _) (x2 & m2 & _ & L2 & -> & _)]];
        rewrite !length_app in *; simpl in *; lia.
Qed.

Lemma derivative_cost_bounds (t : Unique.unique_ptr) :
  derivative_cost t <= 3 * nodes t /\
  derivative_cost t <= nodes (Rules.arrow_derivative_rule t).
Proof.
  induction t as [|c| |cls l r [IHl1 IHl2] [IHr1 IHr2]]
    using unique_ptr_induction; simpl; try lia.
  destruct cls; simpl; lia.
Qed.

Lemma derivative_cost_positive (t : Unique.unique_ptr) :
  Unique.well_formed t = true -> 0 < derivative_cost t.
Proof.
  destruct t as [|[c| |[] l r]]; simpl; intros Hwf; try discriminate; lia.
Qed.

(** X7.  On a well-formed tree [derivative] allocates one object per
    leaf and per [Sum] and three per [Product] of the tree, in either
    order of allocation, and returns the newest of them.  That is at
    most three objects per object of the tree and never more than the
    tree of the derivative has nodes: the subtrees a [Product] reuses
    are shared, not copied. *)
Theorem derivative_allocation_is_linear
    (ord : argument_order) (n : nat) (h : heap) (p : shared_ptr)
    (t : Unique.unique_ptr) :
  deep_copy n h p = Done t -> Unique.well_formed t = true ->
  exists new,
    derivative ord n p h = Done (ptr (pred (length (h ++ new))), h ++ new) /\
    length new = derivative_cost t /\
    (0 < length new)%nat /\
    (length new <= 3 * nodes t)%nat /\
    (length new <= nodes (Rules.arrow_derivative_rule t))%nat.
Proof.
  intros E Wt.
  destruct (derivative_refines ord n h p t E Wt) as (q & new & Ed & _).
  destruct (derivative_new_objects ord n h p t E q _ Ed) as (_ & L & ->).
  rewrite length_app in L.
  assert (L' : length new = derivative_cost t) by lia.
  exists new. split; [exact Ed|]. split; [exact L'|].
  destruct (derivative_cost_bounds t) as [B1 B2].
  pose proof (derivative_cost_positive t Wt). lia.
Qed.

End Allocation.

(** * Heaps stay ordered *)

Section Ordered.
Import Shared Effects Order.

Lemma below_mono (a b : address) (p : shared_ptr) :
  below a p = true -> a <= b -> below b p = true.
Proof.
  destruct p as [|c]; simpl; [reflexivity|].
  rewrite !Nat.ltb_lt. lia.
Qed.

Lemma ordered_from_app (h : heap) (o : Expression) :
  forall a, ordered_from a (h ++ [o]) =
            ordered_from a h && children_below (a + length h) o.
Proof.
  induction h as [|o' h IH]; intros a; simpl.
  - now rewrite Nat.add_0_r, andb_true_r.
  - rewrite IH, <- andb_assoc. do 3 f_equal. lia.
Qed.

Lemma ordered_from_lookup (h : heap) :
  forall a i o,
    ordered_from a h = true -> h !! i = Some o ->
    children_below (a + i) o = true.
Proof.
  induction h as [|o' h IH]; intros a i o Ho Ei; [discriminate|].
  simpl in Ho. apply andb_prop in Ho as [Ho' Ho].
  destruct i as [|i]; simpl in Ei.
  - inversion Ei; subst o'. now rewrite Nat.add_0_r.
  - replace (a + S i) with (S a + i) by lia. now apply IH.
Qed.

Lemma tidy_extend (h h' : heap) (p q : shared_ptr) :
  tidy h p -> h `prefix_of` h' -> tidy h' q -> tidy h' p.
Proof.
  intros [_ Hb] P [Ho _]. split; [exact Ho|].
  apply below_mono with (length h); [exact Hb|]. now apply prefix_length.
Qed.

Lemma tidy_children (h : heap) (a : address) (cls : TwoOp_class)
    (l r : shared_ptr) :
  tidy h (ptr a) -> h !! a = Some (TwoOp cls l r) -> tidy h l /\ tidy h r.
Proof.
  intros [Ho Hb] Ea. simpl in Hb. apply Nat.ltb_lt in Hb.
  pose proof (ordered_from_lookup h 0 a _ Ho Ea) as Hc. simpl in Hc.
  apply andb_prop in Hc as [Hl Hr].
  split; (split; [exact Ho|]); eapply below_mono; eauto; lia.
Qed.

Lemma tidy_leaf (h : heap) (o : Expression) (p : shared_ptr) :
  tidy h p -> children_below (length h) o = true ->
  tidy (h ++ [o]) (ptr (length h)).
Proof.
  intros [Ho _] Hc. split.
  - unfold ordered. rewrite ordered_from_app. simpl.
    now rewrite Hc, andb_true_r.
  - simpl. apply Nat.ltb_lt. rewrite length_app. simpl. lia.
Qed.

Lemma tidy_make_shared (h : heap) (cls : TwoOp_class) (l r : shared_ptr) :
  tidy h l -> tidy h r ->
  tidy (h ++ [TwoOp cls l r]) (ptr (length h)).
Proof.
  intros Tl [_ Br]. apply tidy_leaf with l; [exact Tl|].
  simpl. destruct Tl as [_ Bl]. now rewrite Bl, Br.
Qed.

(** [derivative] keeps the heap ordered. *)
Lemma derivative_keeps_order (ord : argument_order) (n : nat) :
  forall h p,
    ensures (derivative ord n p) h (fun q h' => tidy h p -> tidy h' q).
Proof.
  induction n as [|n IH]; intros h p q h' Ed; [discriminate|].
  simpl in Ed. destruct p as [|a]; [discriminate|]. simpl in Ed.
  destruct (h !! a) as [o|] eqn:Ea; [|discriminate]. simpl in Ed.
  destruct o as [c| |cls l r].
  - inversion Ed; subst q h'. split; [apply prefix_snoc|].
    intros Ht. now apply tidy_leaf with (ptr a).
  - inversion Ed; subst q h'. split; [apply prefix_snoc|].
    intros Ht. now apply tidy_leaf with (ptr a).
  - assert (Hc : forall c h0, h `prefix_of` h0 ->
              ensures (derivative ord n c) h0
                (fun q h1 => tidy h0 c -> tidy h1 q))
      by (intros c h0 _; apply IH).
    destruct cls.
    + apply bind_Done in Ed as ([[dl dr] h2] & Eb & Em).
      destruct (ensures_both ord _ _ h _ _ (Hc l) (Hc r) _ _ Eb)
        as (P2 & h1 & P01 & P12 & Hn).
      inversion Em; subst q h'; clear Em.
      split; [transitivity h2; [exact P2 | apply prefix_snoc]|].
      intros Ht. destruct (tidy_children h a Sum l r Ht Ea) as [Tl Tr].
      simpl in Hn.
      destruct Hn as [[Q1 Q2] | [Q1 Q2]]; specialize (Q1 ltac:(assumption)).
      * assert (T2 : tidy h2 dr)
          by (apply Q2; now apply (tidy_extend h h1 r dl)).
        apply tidy_make_shared; [|exact T2].
        now apply (tidy_extend h1 h2 dl dr).
      * assert (T2 : tidy h2 dl)
          by (apply Q2; now apply (tidy_extend h h1 l dr)).
        apply tidy_make_shared; [exact T2|].
        now apply (tidy_extend h1 h2 dr dl).
    + apply bind_Done in Ed as ([[p1 p2] h2] & Eb & Em).
      pose proof (fun h0 P0 => ensures_then_make_shared _
                    (fun dr => TwoOp Product l dr) _ _ (Hc r h0 P0)) as Ha.
      pose proof (fun h0 P0 => ensures_then_make_shared _
                    (fun dl => TwoOp Product dl r) _ _ (Hc l h0 P0)) as Hb.
      destruct (ensures_both ord _ _ h _ _ Ha Hb _ _ Eb)
        as (P2 & h1 & P01 & P12 & Hn).
      inversion Em; subst q h'; clear Em.
      split; [transitivity h2; [exact P2 | apply prefix_snoc]|].
      intros Ht. destruct (tidy_children h a Product l r Ht Ea) as [Tl Tr].
      simpl in Hn.
      destruct Hn as [[(dr & m1 & Pm1 & Q1 & -> & ->)
                       (dl & m2 & Pm2 & Q2 & -> & ->)]
                     |[(dl & m1 & Pm1 & Q1 & -> & ->)
                       (dr & m2 & Pm2 & Q2 & -> & ->)]];
        specialize (Q1 ltac:(assumption)).
      * assert (T1 : tidy (m1 ++ [TwoOp Product l dr]) (ptr (length m1)))
          by (apply tidy_make_shared;
              [now apply (tidy_extend h m1 l dr) | exact Q1]).
        assert (T2 : tidy m2 dl).
        { apply Q2. apply (tidy_extend h _ l (ptr (length m1)) Tl); [|exact T1].
          transitivity m1; [exact Pm1 | apply prefix_snoc]. }
        assert (T3 : tidy (m2 ++ [TwoOp Product dl r]) (ptr (length m2))).
        { apply tidy_make_shared; [exact T2|].
          apply (tidy_extend h m2 r dl Tr); [|exact T2].
          transitivity (m1 ++ [TwoOp Product l dr]); [|exact Pm2].
          transitivity m1; [exact Pm1 | apply prefix_snoc]. }
        apply tidy_make_shared; [|exact T3].
        apply (tidy_extend _ _ _ (ptr (length m2)) T1); [|exact T3].
        transitivity m2; [exact Pm2 | apply prefix_snoc].
      * assert (T1 : tidy (m1 ++ [TwoOp Product dl r]) (ptr (length m1)))
          by (apply tidy_make_shared;
              [exact Q1 | now apply (tidy_extend h m1 r dl)]).
        assert (T2 : tidy m2 dr).
        { apply Q2. apply (tidy_extend h _ r (ptr (length m1)) Tr); [|exact T1].
          transitivity m1; [exact Pm1 | apply prefix_snoc]. }
        assert (T3 : tidy (m2 ++ [TwoOp Product l dr]) (ptr (length m2))).
        { apply tidy_make_shared; [|exact T2].
          apply (tidy_extend h m2 l dr Tl); [|exact T2].
          transitivity (m1 ++ [TwoOp Product dl r]); [|exact Pm2].
          transitivity m1; [exact Pm1 | apply prefix_snoc]. }
        apply tidy_make_shared; [exact T3|].
        apply (tidy_extend _ _ _ (ptr (length m2)) T1); [|exact T3].
        transitivity m2; [exact Pm2 | apply prefix_snoc].
Qed.

(** In an ordered heap every pointer reaches a finite tree, within a
    budget of one more than the address it holds. *)
Lemma ordered_reaches_tree (h : heap) :
  ordered h = true ->
  forall a p, below a p = true -> a <= length h ->
    exists t, deep_copy (S a) h p = Done t.
Proof.
  intros Ho a. induction a as [|a IH]; intros p Hb Ha.
  - destruct p as [|b]; [eexists; reflexivity|].
    simpl in Hb. discriminate.
  - destruct p as [|b]; [eexists; reflexivity|].
    simpl in Hb. apply Nat.ltb_lt in Hb.
    destruct (h !! b) as [o|] eqn:Eb;
      [|apply lookup_ge_None in Eb; lia].
    pose proof (ordered_from_lookup h 0 b o Ho Eb) as Hc. simpl in Hc.
    destruct o as [c| |cls l r].
    + eexists. simpl. rewrite Eb. reflexivity.
    + eexists. simpl. rewrite Eb. reflexivity.
    + apply andb_prop in Hc as [Hl Hr].
      destruct (IH l) as [tl El]; [eapply below_mono; eauto; lia | lia |].
      destruct (IH r) as [tr Er]; [eapply below_mono; eauto; lia | lia |].
      eexists. apply deep_copy_TwoOp with (1 := Eb); eassumption.
Qed.

Lemma build_keeps_order (ord : argument_order) (e : recipe) :
  forall h,
    ensures (build ord e) h
      (fun q h' => ordered h = true -> tidy h' q).
Proof.
  induction e as [|c| |cls l IHl r IHr]; intros h q h' Eb.
  - inversion Eb; subst q h'. split; [reflexivity|]. intros Ho. now split.
  - inversion Eb; subst q h'. split; [apply prefix_snoc|].
    intros Ho. apply tidy_leaf with nullptr; [now split | reflexivity].
  - inversion Eb; subst q h'. split; [apply prefix_snoc|].
    intros Ho. apply tidy_leaf with nullptr; [now split | reflexivity].
  - simpl in Eb. apply bind_Done in Eb as ([[pl pr] h2] & Eb & Em).
    destruct (ensures_both ord _ _ h _ _
                (fun h0 _ => IHl h0) (fun h0 _ => IHr h0) _ _ Eb)
      as (P2 & h1 & P01 & P12 & Hn).
    inversion Em; subst q h'; clear Em.
    split; [transitivity h2; [exact P2 | apply prefix_snoc]|].
    intros Ho. simpl in Hn.
    destruct Hn as [[Q1 Q2] | [Q1 Q2]]; specialize (Q1 Ho);
      pose proof (Q2 (proj1 Q1)) as T2.
    + apply tidy_make_shared; [|exact T2].
      now apply (tidy_extend h1 h2 pl pr).
    + apply tidy_make_shared; [exact T2|].
      now apply (tidy_extend h1 h2 pr pl).
Qed.

(** X8.  The heap of the shared-ownership program never holds a cycle.
    In a heap where every object points to older objects only, each
    pointer reaches a finite tree, within a budget of one more than the
    number of objects; nested [make_shared] calls and [derivative], in
    either order of allocation, only append objects and leave such a
    heap, with a result that points into it. *)
Theorem heap_stays_ordered (h : heap) (p : shared_ptr) :
  ordered h = true -> below (length h) p = true ->
  (exists t, deep_copy (S (length h)) h p = Done t) /\
  (forall ord n q h', derivative ord n p h = Done (q, h') ->
     h `prefix_of` h' /\ ordered h' = true /\ below (length h') q = true) /\
  (forall ord e q h', build ord e h = Done (q, h') ->
     h `prefix_of` h' /\ ordered h' = true /\ below (length h') q = true).
Proof.
  intros Ho Hb. split; [|split].
  - now apply (ordered_reaches_tree h Ho (length h) p Hb).
  - intros ord n q h' Ed.
    destruct (derivative_keeps_order ord n h p q h' Ed) as [P T].
    split; [exact P|]. apply T. now split.
  - intros ord e q h' Eb.
    destruct (build_keeps_order ord e h q h' Eb) as [P T].
    split; [exact P|]. now apply T.
Qed.

End Ordered.

(** * A null pointer anywhere in a shared tree *)

Section NullAnywhere.
Import Shared Effects.
Context `{DoubleFormat}.

Lemma both_faults_left {A B : Type} (ord : argument_order)
    (fa : heap -> outcome (A * heap)) (fb : heap -> outcome (B * heap))
    (h : heap) :
  (forall ext, fa (h ++ ext) = Fault) -> settles fb h ->
  both ord fa fb h = Fault.
Proof.
  intros Ha Hb. pose proof (Ha []) as Ha0. rewrite app_nil_r in Ha0.
  destruct ord; unfold both; [now rewrite Ha0|].
  destruct (Hb []) as [(b & new & Eb) | Eb]; rewrite app_nil_r in Eb;
    rewrite Eb; [|reflexivity].
  simpl. now rewrite Ha.
Qed.

Lemma both_faults_right {A B : Type} (ord : argument_order)
    (fa : heap -> outcome (A * heap)) (fb : heap -> outcome (B * heap))
    (h : heap) :
  settles fa h -> (forall ext, fb (h ++ ext) = Fault) ->
  both ord fa fb h = Fault.
Proof.
  intros Ha Hb. pose proof (Hb []) as Hb0. rewrite app_nil_r in Hb0.
  destruct ord; unfold both; [|now rewrite Hb0].
  destruct (Ha []) as [(a & new & Ea) | Ea]; rewrite app_nil_r in Ea;
    rewrite Ea; [|reflexivity].
  simpl. now rewrite Hb.
Qed.

Lemma settles_then_make_shared {A : Type}
    (f : heap -> outcome (A * heap)) (g : A -> Expression) (h : heap) :
  settles f h ->
  settles (fun h => '(a, h) ← f h; make_shared (g a) h) h.
Proof.
  intros Hf ext. destruct (Hf ext) as [(a & new & E) | E]; rewrite E.
  - left. exists (ptr (length ((h ++ ext) ++ new))), (new ++ [g a]).
    simpl. unfold make_shared. now rewrite app_assoc.
  - now right.
Qed.

(** With a budget that reaches the whole tree, [derivative] faults on a
    tree that holds a null pointer. *)
Lemma derivative_null_faults (ord : argument_order) (n : nat) :
  forall h p t,
    deep_copy n h p = Done t -> Unique.well_formed t = false ->
    derivative ord n p h = Fault.
Proof.
  induction n as [|n IH]; intros h p t E Wt; [discriminate|].
  simpl in E. destruct p as [|a]; [reflexivity|].
  destruct (h !! a) as [o|] eqn:Ea; [|discriminate].
  destruct o as [c| |cls l r]; try (inversion E; subst t; discriminate).
  apply bind_Done in E as (tl & El & E).
  apply bind_Done in E as (tr & Er & E).
  inversion E; subst t; clear E. simpl in Wt.
  assert (Hs : forall c tc, deep_copy n h c = Done tc ->
            settles (derivative ord n c) h).
  { intros c tc Ec ext.
    pose proof (deep_copy_mono n n h ext c tc Ec (le_n _)) as Ec'.
    destruct (Unique.well_formed tc) eqn:Wc.
    - left. destruct (derivative_refines ord n _ c tc Ec' Wc)
        as (q & new & Ed & _). eauto.
    - right. now apply IH with tc. }
  assert (Hf : forall c tc, deep_copy n h c = Done tc ->
            Unique.well_formed tc = false ->
            forall ext, derivative ord n c (h ++ ext) = Fault).
  { intros c tc Ec Wc ext. apply IH with tc; [|exact Wc].
    now apply deep_copy_mono with n. }
  simpl. rewrite Ea. simpl.
  destruct cls.
  - enough (Eb : both ord (derivative ord n l) (derivative ord n r) h = Fault)
      by now rewrite Eb.
    destruct (Unique.well_formed tl) eqn:Wl.
    + apply both_faults_right; [now apply Hs with tl | now apply Hf with tr].
    + apply both_faults_left; [now apply Hf with tl | now apply Hs with tr].
  - enough (Eb : both ord
              (fun h => '(dr, h) ← derivative ord n r h;
                        make_shared (TwoOp Product l dr) h)
              (fun h => '(dl, h) ← derivative ord n l h;
                        make_shared (TwoOp Product dl r) h) h = Fault)
      by now rewrite Eb.
    destruct (Unique.well_formed tl) eqn:Wl.
    + apply both_faults_left.
      * intros ext. now rewrite (Hf r tr Er Wt ext).
      * apply (settles_then_make_shared _ (fun dl => TwoOp Product dl r)).
        now apply Hs with tl.
    + apply both_faults_right.
      * apply (settles_then_make_shared _ (fun dr => TwoOp Product l dr)).
        now apply Hs with tr.
      * intros ext. now rewrite (Hf l tl El Wl ext).
Qed.

(** X9.  In the shared-ownership program a null pointer anywhere in
    the tree a pointer reaches, at any depth, makes [evaluate], [print]
    and [derivative] fault (each visits every node), in either order of
    allocation and for every argument and stream. *)
Theorem null_anywhere_faults
    (n : nat) (h : heap) (p : shared_ptr) (t : Unique.unique_ptr) :
  deep_copy n h p = Done t -> Unique.well_formed t = false ->
  (forall x, evaluate n h p x = Fault) /\
  (forall os w, print n h p os w = Fault) /\
  (forall ord, derivative ord n p h = Fault).
Proof.
  intros E Wt. split; [|split].
  - intros x. rewrite (shared_evaluate_copy n h p t x E).
    now apply unique_evaluate_null_faults.
  - intros os w. rewrite (shared_print_copy n h p t os w E).
    now apply unique_print_null_faults.
  - intros ord. now apply derivative_null_faults with t.
Qed.

End NullAnywhere.

(** * The hand-written classes and their refactoring into [TwoOp] *)

Section RawMore.
Context `{DoubleFormat}.

Lemma raw_print_appends (p : Raw.pointer) :
  exists o : outcome string,
    forall os w, Raw.arrow_print p os w = (s ← o; Done (put os s w)).
Proof.
  revert p.
  apply (raw_pointer_mut
           (fun e => exists o : outcome string,
              forall os w, Raw.print e os w = (s ← o; Done (put os s w)))
           (fun p => exists o : outcome string,
              forall os w, Raw.arrow_print p os w =
                           (s ← o; Done (put os s w)))).
  - intros c. exists (Done (format_double c)). reflexivity.
  - exists (Done "x"). reflexivity.
  - intros cls l [ol Hl] r [or Hr]. destruct cls.
    + exists (sl ← ol; sr ← or; Done ("(" +:+ sl +:+ String "+" (sr +:+ ")"))).
      intros os w. simpl. rewrite Hl.
      destruct ol as [sl| |]; simpl; try reflexivity.
      rewrite Hr. destruct or as [sr| |]; simpl; try reflexivity.
      unfold put_char. rewrite !put_put. reflexivity.
    + exists (sl ← ol; sr ← or; Done (sl +:+ String "*" sr)).
      intros os w. simpl. rewrite Hl.
      destruct ol as [sl| |]; simpl; try reflexivity.
      rewrite Hr. destruct or as [sr| |]; simpl; try reflexivity.
      unfold put_char. rewrite !put_put. reflexivity.
  - exists Fault. reflexivity.
  - intros e He. exact He.
Qed.

Lemma raw_print_text (p : Raw.pointer) (os : ostream) (w : sinks) :
  Raw.arrow_print p os w = (s ← Raw.text p; Done (put os s w)).
Proof.
  destruct (raw_print_appends p) as [o Ho].
  unfold Raw.text. rewrite !Ho. destruct o as [s| |]; reflexivity.
Qed.

Lemma raw_text_Product (l r : Raw.pointer) :
  Raw.text (Raw.new (Raw.TwoOp Product l r)) =
  (sl ← Raw.text l; sr ← Raw.text r; Done (sl +:+ String "*" sr)).
Proof.
  unfold Raw.text at 1. simpl. rewrite (raw_print_text l).
  destruct (Raw.text l) as [sl| |]; simpl; try reflexivity.
  rewrite (raw_print_text r).
  destruct (Raw.text r) as [sr| |]; simpl; try reflexivity.
  unfold put_char. rewrite !put_put, written_put_empty. reflexivity.
Qed.

Lemma float_infinity_is_not_finite :
  (infinity : double) <> 0x1.1ccf385ebc8ap+1023%float.
Proof.
  intros E.
  apply (f_equal (fun f => PrimFloat.eqb f infinity)) in E.
  vm_compute in E. discriminate.
Qed.

(** X10.  [Product::print] of [block-2b.md] does not record how nested
    products are grouped: for all expressions a, b and c,
    [(a*b)*c] and [a*(b*c)] print the same text (or both fail), while
    [Product::evaluate] there, multiplying doubles, can give the two
    trees different values. *)
Theorem raw_Product_print_forgets_grouping :
  (forall a b c : Raw.pointer,
      Raw.text (Raw.new (Raw.TwoOp Product
                  (Raw.new (Raw.TwoOp Product a b)) c)) =
      Raw.text (Raw.new (Raw.TwoOp Product
                  a (Raw.new (Raw.TwoOp Product b c))))) /\
  (exists a b c : Raw.pointer, exists x u v,
      Raw.arrow_evaluate (Raw.new (Raw.TwoOp Product
                  (Raw.new (Raw.TwoOp Product a b)) c)) x = Done u /\
      Raw.arrow_evaluate (Raw.new (Raw.TwoOp Product
                  a (Raw.new (Raw.TwoOp Product b c)))) x = Done v /\
      u <> v).
Proof.
  split.
  - intros a b c. rewrite !raw_text_Product.
    destruct (Raw.text a) as [sa| |]; simpl; try reflexivity.
    destruct (Raw.text b) as [sb| |]; simpl; try reflexivity.
    destruct (Raw.text c) as [sc| |]; simpl; try reflexivity.
    now rewrite string_app_assoc.
  - exists (Raw.new (Raw.Constant 0x1.1ccf385ebc8ap+1023)),
           (Raw.new (Raw.Constant 10)),
           (Raw.new (Raw.Constant 0x1.999999999999ap-4)),
           0%float, infinity, 0x1.1ccf385ebc8ap+1023%float.
    split; [reflexivity|]. split; [reflexivity|].
    exact float_infinity_is_not_finite.
Qed.

(** X11.  Replacing the hand-written [Sum] class by [TwoOp] with
    [calc] and [op] changes nothing on trees without a [Product]:
    built the same way, the tree of [block-2b.md] and the tree of the
    exclusive-ownership program evaluate to the same result at every
    argument and print the same to every stream, null children
    included. *)
Theorem Sum_refactoring_preserves_behaviour (e : recipe) :
  Shape.product_free (Unique.build e) = true ->
  (forall x, Raw.arrow_evaluate (Raw.build e) x =
             Unique.arrow_evaluate (Unique.build e) x) /\
  (forall os w, Raw.arrow_print (Raw.build e) os w =
                Unique.arrow_print (Unique.build e) os w).
Proof.
  induction e as [|c| |cls l IHl r IHr]; intros Hp;
    try (split; reflexivity).
  destruct cls; [|discriminate].
  simpl in Hp. apply andb_prop in Hp as [Pl Pr].
  destruct (IHl Pl) as [El Tl], (IHr Pr) as [Er Tr]. split.
  - intros x. simpl. now rewrite El, Er.
  - intros os w. simpl. rewrite Tl.
    destruct (Unique.arrow_print (Unique.build l) os _); simpl;
      try reflexivity.
    now rewrite Tr.
Qed.

End RawMore.

(** * [new] and [delete] *)

Section Deleting.
Import Store.

Lemma new_is_fresh (s : store) : s !! fresh (dom s) = None.
Proof. apply not_elem_of_dom, is_fresh. Qed.

Lemma disposable_null (s : store) : disposable s nullptr s ∅ 0.
Proof.
  split; [|split].
  - intros i Hi. now apply not_elem_of_empty in Hi.
  - reflexivity.
  - intros S0 k _. exists S0. split; [reflexivity|].
    intros i. case_decide as Hi; [|reflexivity].
    now apply not_elem_of_empty in Hi.
Qed.

Lemma disposable_leaf (s : store) (o : Expression) :
  (forall cls l r, o <> TwoOp cls l r) ->
  disposable s (new o s).1 (new o s).2 {[fresh (dom s)]} 0.
Proof.
  intros Ho. simpl. pose proof (new_is_fresh s) as Fa.
  set (a := fresh (dom s)) in *. split; [|split].
  - intros i Hi. apply elem_of_singleton in Hi as ->.
    split; [exact Fa|]. rewrite lookup_insert_eq. eauto.
  - intros i Hi. apply not_elem_of_singleton in Hi.
    now rewrite lookup_insert_ne.
  - intros S0 k HS.
    assert (Ea : S0 !! a = Some o).
    { rewrite HS by now apply elem_of_singleton. apply lookup_insert_eq. }
    exists (base.delete a S0). split.
    + simpl. rewrite Ea. destruct o; try reflexivity.
      now destruct (Ho cls left right).
    + intros i. case_decide as Hi.
      * apply elem_of_singleton in Hi as ->. apply lookup_delete_eq.
      * apply not_elem_of_singleton in Hi. now apply lookup_delete_ne.
Qed.

Lemma delete_more_fuel (n : nat) :
  forall m p s s', delete n p s = Done s' -> n <= m -> delete m p s = Done s'.
Proof.
  induction n as [|n IH]; intros m p s s' E Hm.
  - destruct p; [|discriminate]. now destruct m.
  - destruct p as [|a]; [now destruct m|].
    destruct m as [|m]; [lia|]. simpl in *.
    destruct (s !! a) as [[c| |cls l r]|]; try exact E.
    apply bind_Done in E as (s1 & E1 & E).
    apply bind_Done in E as (s2 & E2 & E).
    rewrite (IH m l s s1 E1) by lia. simpl.
    rewrite (IH m r s1 s2 E2) by lia. exact E.
Qed.

Lemma delete_TwoOp (n : nat) (s : store) (a : address)
    (cls : TwoOp_class) (l r : pointer) :
  s !! a = Some (TwoOp cls l r) ->
  delete (S n) (object_at a) s =
  (s ← delete n l s; s ← delete n r s; Done (base.delete a s)).
Proof. intros Ea. cbn [delete]. rewrite Ea. reflexivity. Qed.

(** A node whose two children were built one after the other. *)
Lemma disposable_node (s s1 s2 : store) (p1 p2 pl pr : pointer)
    (K1 K2 : gset address) (h1 h2 : nat) (cls : TwoOp_class) :
  disposable s p1 s1 K1 h1 -> disposable s1 p2 s2 K2 h2 ->
  (pl = p1 /\ pr = p2) \/ (pl = p2 /\ pr = p1) ->
  disposable s (new (TwoOp cls pl pr) s2).1 (new (TwoOp cls pl pr) s2).2
    ({[fresh (dom s2)]} ∪ K1 ∪ K2) (S (Nat.max h1 h2)).
Proof.
  intros (A1 & B1 & D1) (A2 & B2 & D2) Hp. simpl.
  pose proof (new_is_fresh s2) as Fa. set (a := fresh (dom s2)) in *.
  set (N := TwoOp cls pl pr).
  assert (N2 : forall i, i ∈ K2 -> i ∉ K1).
  { intros i H2 H1. destruct (A2 i H2) as [E _], (A1 i H1) as [_ [o E']].
    congruence. }
  assert (L1 : forall i, i ∈ K1 -> s2 !! i = s1 !! i)
    by (intros i H1; apply B2; intros H2; now apply (N2 i)).
  assert (Na1 : a ∉ K1).
  { intros H1. destruct (A1 a H1) as [_ [o E]]. rewrite <- L1 in E by done.
    congruence. }
  assert (Na2 : a ∉ K2).
  { intros H2. destruct (A2 a H2) as [_ [o E]]. congruence. }
  split; [|split].
  - intros i Hi. apply elem_of_union in Hi as [Hi | H2];
      [apply elem_of_union in Hi as [Hi | H1]|].
    + apply elem_of_singleton in Hi as ->. split.
      * now rewrite <- B1, <- B2.
      * rewrite lookup_insert_eq. eauto.
    + split; [apply A1, H1|].
      rewrite lookup_insert_ne by congruence.
      rewrite L1 by done. apply A1, H1.
    + split.
      * rewrite <- B1 by now apply N2. apply A2, H2.
      * rewrite lookup_insert_ne by congruence. apply A2, H2.
  - intros i Hi. apply not_elem_of_union in Hi as [Hi H2].
    apply not_elem_of_union in Hi as [Hi H1].
    apply not_elem_of_singleton in Hi.
    rewrite lookup_insert_ne by done. now rewrite B2, B1.
  - intros S0 k HS.
    assert (Ia : a ∈ ({[a]} ∪ K1 ∪ K2 : gset address))
      by (apply elem_of_union_l, elem_of_union_l; now apply elem_of_singleton).
    assert (I1 : forall i, i ∈ K1 -> i ∈ ({[a]} ∪ K1 ∪ K2 : gset address))
      by (intros i Hi; now apply elem_of_union_l, elem_of_union_r).
    assert (I2 : forall i, i ∈ K2 -> i ∈ ({[a]} ∪ K1 ∪ K2 : gset address))
      by (intros i Hi; now apply elem_of_union_r).
    assert (IK : forall i, i ∈ ({[a]} ∪ K1 ∪ K2 : gset address) <->
                           i = a \/ i ∈ K1 \/ i ∈ K2).
    { intros i. rewrite !elem_of_union, elem_of_singleton. tauto. }
    assert (Ea : S0 !! a = Some N).
    { rewrite HS by exact Ia. apply lookup_insert_eq. }
    assert (H1 : forall i, i ∈ K1 -> S0 !! i = s1 !! i).
    { intros i Hi. rewrite HS by now apply I1.
      rewrite lookup_insert_ne by congruence. now apply L1. }
    assert (H2 : forall i, i ∈ K2 -> S0 !! i = s2 !! i).
    { intros i Hi. rewrite HS by now apply I2.
      now rewrite lookup_insert_ne by congruence. }
    assert (F1 : exists k1, Nat.max h1 h2 + k = h1 + k1)
      by (exists (Nat.max h1 h2 + k - h1); lia).
    assert (F2 : exists k2, Nat.max h1 h2 + k = h2 + k2)
      by (exists (Nat.max h1 h2 + k - h2); lia).
    destruct F1 as [k1 F1], F2 as [k2 F2].
    change (S (S (Nat.max h1 h2) + k)) with (S (S (Nat.max h1 h2 + k))).
    rewrite (delete_TwoOp _ _ _ cls pl pr Ea).
    destruct Hp as [[-> ->] | [-> ->]].
    + destruct (D1 S0 k1 H1) as (S1 & E1 & Q1).
      rewrite <- F1 in E1. rewrite E1. cbn [mbind outcome_bind].
      destruct (D2 S1 k2) as (S2 & E2 & Q2).
      { intros i Hi. rewrite Q1. case_decide; [now destruct (N2 i)|].
        now apply H2. }
      rewrite <- F2 in E2. rewrite E2. cbn [mbind outcome_bind].
      eexists. split; [reflexivity|]. intros i.
      destruct (decide (i = a)) as [-> | Hia].
      * rewrite lookup_delete_eq. case_decide; [reflexivity | contradiction].
      * rewrite lookup_delete_ne by done. rewrite Q2, Q1.
        repeat case_decide; try reflexivity;
          rewrite IK in *; tauto.
    + destruct (D2 S0 k2 H2) as (S1 & E1 & Q1).
      rewrite <- F2 in E1. rewrite E1. cbn [mbind outcome_bind].
      destruct (D1 S1 k1) as (S2 & E2 & Q2).
      { intros i Hi. rewrite Q1. case_decide as Hi2; [now destruct (N2 i)|].
        now apply H1. }
      rewrite <- F1 in E2. rewrite E2. cbn [mbind outcome_bind].
      eexists. split; [reflexivity|]. intros i.
      destruct (decide (i = a)) as [-> | Hia].
      * rewrite lookup_delete_eq. case_decide; [reflexivity | contradiction].
      * rewrite lookup_delete_ne by done. rewrite Q2, Q1.
        repeat case_decide; try reflexivity;
          rewrite IK in *; tauto.
Qed.

Lemma build_is_disposable (ord : Shared.argument_order) (e : recipe) :
  forall s, exists K,
    disposable s (build ord e s).1 (build ord e s).2 K (height e).
Proof.
  induction e as [|c| |cls l IHl r IHr]; intros s.
  - exists ∅. apply disposable_null.
  - eexists. now apply disposable_leaf.
  - eexists. now apply disposable_leaf.
  - simpl. destruct ord.
    + destruct (IHl s) as [Kl Dl].
      destruct (build Shared.left_to_right l s) as [pl s1].
      destruct (IHr s1) as [Kr Dr].
      destruct (build Shared.left_to_right r s1) as [pr s2].
      eexists. apply (disposable_node s s1 s2 pl pr pl pr Kl Kr _ _ cls Dl Dr).
      now left.
    + destruct (IHr s) as [Kr Dr].
      destruct (build Shared.right_to_left r s) as [pr s1].
      destruct (IHl s1) as [Kl Dl].
      destruct (build Shared.right_to_left l s1) as [pl s2].
      eexists.
      rewrite Nat.max_comm.
      apply (disposable_node s s1 s2 pr pl pl pr Kr Kl _ _ cls Dr Dl).
      now right.
Qed.

(** X12.  With the destructors of [block-2b.md], deleting the root of
    a tree built with nested [new] expressions releases every object
    of the tree and nothing else: the store is again exactly what it
    was before the tree was built, whatever was alive then, in either
    order of allocation, and also when some children are null
    ([delete] of a null pointer does nothing). *)
Theorem delete_releases_the_whole_tree
    (ord : Shared.argument_order) (e : recipe) (s : store) (k : nat) :
  delete (S (height e + k)) (build ord e s).1 (build ord e s).2 = Done s.
Proof.
  destruct (build_is_disposable ord e s) as (K & A & B & D).
  destruct (D (build ord e s).2 k) as (S1 & E & Q); [reflexivity|].
  rewrite E. f_equal. apply map_eq. intros i. rewrite Q.
  case_decide as Hi; [symmetry; apply A, Hi | now apply B].
Qed.

End Deleting.

Section DoubleFree.
Import Store.

(** [delete] removes objects and changes none. *)
Lemma delete_keeps_objects (n : nat) :
  forall p s s', delete n p s = Done s' ->
    forall i o, s' !! i = Some o -> s !! i = Some o.
Proof.
  induction n as [|n IH]; intros p s s' E i o Ei.
  - destruct p; [|discriminate]. inversion E; now subst.
  - destruct p as [|a]; [inversion E; now subst|].
    cbn [delete] in E. destruct (s !! a) as [[c| |cls l r]|] eqn:Ea;
      try discriminate.
    + inversion E; subst s'. apply lookup_delete_Some in Ei. tauto.
    + inversion E; subst s'. apply lookup_delete_Some in Ei. tauto.
    + apply bind_Done in E as (s1 & E1 & E).
      apply bind_Done in E as (s2 & E2 & E).
      inversion E; subst s'. apply lookup_delete_Some in Ei as [_ Ei].
      eapply IH; [exact E1|]. eapply IH; [exact E2 | exact Ei].
Qed.

Lemma delete_shrinks (n : nat) (p : pointer) (s s' : store) (i : address) :
  delete n p s = Done s' -> s !! i = None -> s' !! i = None.
Proof.
  intros E Ei. destruct (s' !! i) as [o|] eqn:Ei'; [|reflexivity].
  rewrite (delete_keeps_objects n p s s' E i o Ei') in Ei. discriminate.
Qed.

Lemma delete_frees (n : nat) (a : address) (s s' : store) :
  delete n (object_at a) s = Done s' -> s' !! a = None.
Proof.
  destruct n as [|n]; [discriminate|]. cbn [delete].
  destruct (s !! a) as [[c| |cls l r]|]; try discriminate; intros E.
  - inversion E. apply lookup_delete_eq.
  - inversion E. apply lookup_delete_eq.
  - apply bind_Done in E as (s1 & E1 & E).
    apply bind_Done in E as (s2 & E2 & E).
    inversion E. apply lookup_delete_eq.
Qed.

Lemma delete_freed_faults (m : nat) (a : address) (s : store) :
  s !! a = None -> forall s', delete m (object_at a) s <> Done s'.
Proof.
  intros Ea s'. destruct m as [|m]; [discriminate|].
  cbn [delete]. now rewrite Ea.
Qed.

Lemma delete_frees_children (n : nat) (s s' : store) (a b : address)
    (cls : TwoOp_class) (l r : pointer) :
  s !! a = Some (TwoOp cls l r) ->
  l = object_at b \/ r = object_at b ->
  delete n (object_at a) s = Done s' -> s' !! b = None.
Proof.
  intros Ea Hb E. destruct n as [|n]; [discriminate|].
  rewrite (delete_TwoOp _ _ _ cls l r Ea) in E.
  apply bind_Done in E as (s1 & E1 & E).
  apply bind_Done in E as (s2 & E2 & E).
  inversion E; subst s'; clear E.
  destruct (decide (b = a)) as [-> | Hne]; [apply lookup_delete_eq|].
  rewrite lookup_delete_ne by congruence.
  destruct Hb as [-> | ->].
  - apply (delete_shrinks n r s1 s2 b E2). now apply delete_frees in E1.
  - now apply delete_frees in E2.
Qed.

Lemma delete_shared_child_fails (m : nat) (s : store) (a b : address)
    (cls : TwoOp_class) (l r : pointer) :
  s !! b = None ->
  l = object_at b \/ r = object_at b ->
  (s !! a = None \/ s !! a = Some (TwoOp cls l r)) ->
  forall s', delete m (object_at a) s <> Done s'.
Proof.
  intros Eb Hb [Ea | Ea] s'; [now apply delete_freed_faults|].
  destruct m as [|m]; [discriminate|].
  rewrite (delete_TwoOp _ _ _ cls l r Ea). intros E.
  apply bind_Done in E as (s1 & E1 & E).
  apply bind_Done in E as (s2 & E2 & _).
  destruct Hb as [-> | ->].
  - now apply (delete_freed_faults m b s Eb s1).
  - apply (delete_freed_faults m b s1) with s2; [|exact E2].
    now apply (delete_shrinks m l s s1 b E1).
Qed.

(** X13.  With the destructors of [block-2b.md] no object survives
    being owned twice.  An object that has been deleted cannot be
    deleted again (the second [delete] is undefined behaviour); a node
    whose two children are the same object cannot be deleted; and of
    two nodes that share a child, deleting one makes deleting the other
    fail. *)
Theorem shared_raw_pointers_are_freed_twice :
  (forall n s a s', delete n (object_at a) s = Done s' ->
     s' !! a = None /\ forall m, delete (S m) (object_at a) s' = Fault) /\
  (forall n s a cls b s',
     s !! a = Some (TwoOp cls (object_at b) (object_at b)) ->
     delete n (object_at a) s <> Done s') /\
  (forall n m s a1 a2 b cls1 cls2 l1 r1 l2 r2 s1 s2,
     s !! a1 = Some (TwoOp cls1 l1 r1) ->
     s !! a2 = Some (TwoOp cls2 l2 r2) ->
     l1 = object_at b \/ r1 = object_at b ->
     l2 = object_at b \/ r2 = object_at b ->
     delete n (object_at a1) s = Done s1 ->
     delete m (object_at a2) s1 <> Done s2).
Proof.
  split; [|split].
  - intros n s a s' E. pose proof (delete_frees n a s s' E) as Ea.
    split; [exact Ea|]. intros m. cbn [delete]. now rewrite Ea.
  - intros n s a cls b s' Ea E.
    destruct n as [|n]; [discriminate|].
    rewrite (delete_TwoOp _ _ _ cls _ _ Ea) in E.
    apply bind_Done in E as (s1 & E1 & E).
    apply bind_Done in E as (s2 & E2 & _).
    apply delete_frees in E1.
    now apply (delete_freed_faults n b s1 E1 s2).
  - intros n m s a1 a2 b cls1 cls2 l1 r1 l2 r2 s1 s2 E1 E2 H1 H2 Ed.
    pose proof (delete_frees_children n s s1 a1 b cls1 l1 r1 E1 H1 Ed) as Eb.
    apply (delete_shared_child_fails m s1 a2 b cls2 l2 r2 Eb H2).
    destruct (s1 !! a2) as [o|] eqn:Ea2; [right | now left].
    rewrite (delete_keeps_objects n _ s s1 Ed a2 o Ea2) in E2.
    now inversion E2.
Qed.

End DoubleFree.

(** * The theorems at concrete trees *)

Section Witnesses.
Import Shared.
#[local] Existing Instance default_format.

Lemma constructors_accept_null_children_witness :
  (exists a pl pr new,
      build right_to_left (r_TwoOp Product r_nullptr r_Variable) [] =
        Done (ptr a, [] ++ new) /\
      ([] ++ new) !! a = Some (TwoOp Product pl pr) /\
      (pl = nullptr \/ pr = nullptr) /\
      forall n,
        (forall x v, evaluate n ([] ++ new) (ptr a) x <> Done v) /\
        (forall os w w', print n ([] ++ new) (ptr a) os w <> Done w') /\
        (forall ord' q, derivative ord' n (ptr a) ([] ++ new) <> Done q)) /\
  (exists pl pr,
      Unique.build (r_TwoOp Product r_nullptr r_Variable) =
        Unique.make_unique (Unique.TwoOp Product pl pr) /\
      (pl = Unique.nullptr \/ pr = Unique.nullptr) /\
      (forall x v,
          Unique.arrow_evaluate
            (Unique.build (r_TwoOp Product r_nullptr r_Variable)) x <> Done v) /\
      (forall os w w',
          Unique.arrow_print
            (Unique.build (r_TwoOp Product r_nullptr r_Variable)) os w
          <> Done w')).
Proof.
  apply (constructors_accept_null_children
           right_to_left Product r_nullptr r_Variable []).
  left. reflexivity.
Defined.

Lemma Product_derivative_is_the_product_rule_witness :
  let h := [Constant 4; Variable_; TwoOp Product (ptr 0) (ptr 1)] in
  exists a' q1 q2 dl dr new,
    derivative left_to_right 2 (ptr 2) h = Done (ptr a', h ++ new) /\
    (h ++ new) !! a' = Some (TwoOp Sum (ptr q1) (ptr q2)) /\
    (h ++ new) !! q1 = Some (TwoOp Product (ptr 0) dr) /\
    (h ++ new) !! q2 = Some (TwoOp Product dl (ptr 1)) /\
    deep_copy 2 (h ++ new) dl =
      Done (Unique.make_unique (Unique.Constant 0)) /\
    deep_copy 2 (h ++ new) dr =
      Done (Unique.make_unique (Unique.Constant 1)) /\
    deep_copy 1 (h ++ new) (ptr 0) =
      Done (Unique.make_unique (Unique.Constant 4)) /\
    deep_copy 1 (h ++ new) (ptr 1) =
      Done (Unique.make_unique Unique.Variable_) /\
    deep_copy 4 (h ++ new) (ptr a') =
      Done (Unique.make_unique (Unique.TwoOp Sum
        (Unique.make_unique
           (Unique.TwoOp Product
              (Unique.make_unique (Unique.Constant 4))
              (Unique.make_unique (Unique.Constant 1))))
        (Unique.make_unique
           (Unique.TwoOp Product
              (Unique.make_unique (Unique.Constant 0))
              (Unique.make_unique Unique.Variable_))))).
Proof.
  apply (Product_derivative_is_the_product_rule left_to_right 1
           [Constant 4; Variable_; TwoOp Product (ptr 0) (ptr 1)] 2
           (ptr 0) (ptr 1)
           (Unique.make_unique (Unique.Constant 4))
           (Unique.make_unique Unique.Variable_)); reflexivity.
Defined.

Lemma operations_are_total_witness :
  let h := [Constant 4; Variable_; TwoOp Product (ptr 0) (ptr 1)] in
  (forall x, exists v, evaluate 5 h (ptr 2) x = Done v) /\
  (forall os w, exists w', print 5 h (ptr 2) os w = Done w') /\
  (forall ord, exists q h', derivative ord 5 (ptr 2) h = Done (q, h')).
Proof.
  apply (operations_are_total 2
           [Constant 4; Variable_; TwoOp Product (ptr 0) (ptr 1)] (ptr 2)).
  - reflexivity.
  - lia.
Defined.

Lemma derivative_leaves_the_tree_unchanged_witness :
  let h := [Constant 4; Variable_; TwoOp Product (ptr 0) (ptr 1)] in
  exists a' q1 q2 dl dr new,
    derivative right_to_left 2 (ptr 2) h = Done (ptr a', h ++ new) /\
    (forall b o, h !! b = Some o -> (h ++ new) !! b = Some o) /\
    (h ++ new) !! 2 = Some (TwoOp Product (ptr 0) (ptr 1)) /\
    (h ++ new) !! a' = Some (TwoOp Sum (ptr q1) (ptr q2)) /\
    (h ++ new) !! q1 = Some (TwoOp Product (ptr 0) dr) /\
    (h ++ new) !! q2 = Some (TwoOp Product dl (ptr 1)) /\
    forall p, p = ptr 0 \/ p = ptr 1 \/ p = ptr 2 ->
      forall m, (2 <= m)%nat ->
        (forall x, evaluate m (h ++ new) p x = evaluate m h p x /\
                   exists v, evaluate m h p x = Done v) /\
        (forall os w, print m (h ++ new) p os w = print m h p os w /\
                      exists w', print m h p os w = Done w').
Proof.
  apply (derivative_leaves_the_tree_unchanged right_to_left 2
           [Constant 4; Variable_; TwoOp Product (ptr 0) (ptr 1)] 2
           (ptr 0) (ptr 1)).
  - reflexivity.
  - reflexivity.
Defined.

Lemma derivative_is_deterministic_witness :
  let h := [Constant 4; Variable_; TwoOp Product (ptr 0) (ptr 1)] in
  exists q1 new1 q2 new2 d,
    derivative left_to_right 2 (ptr 2) h = Done (q1, h ++ new1) /\
    derivative right_to_left 2 (ptr 2) (h ++ new1) =
      Done (q2, (h ++ new1) ++ new2) /\
    deep_copy 2 ((h ++ new1) ++ new2) (ptr 2) = deep_copy 2 h (ptr 2) /\
    deep_copy (2 * 2) ((h ++ new1) ++ new2) q1 = Done d /\
    deep_copy (2 * 2) ((h ++ new1) ++ new2) q2 = Done d /\
    (forall x,
        evaluate (2 * 2) ((h ++ new1) ++ new2) q1 x =
        evaluate (2 * 2) ((h ++ new1) ++ new2) q2 x /\
        exists v, evaluate (2 * 2) ((h ++ new1) ++ new2) q1 x = Done v) /\
    (forall os w,
        print (2 * 2) ((h ++ new1) ++ new2) q1 os w =
        print (2 * 2) ((h ++ new1) ++ new2) q2 os w /\
        exists w', print (2 * 2) ((h ++ new1) ++ new2) q1 os w = Done w').
Proof.
  apply (derivative_is_deterministic left_to_right right_to_left 2
           [Constant 4; Variable_; TwoOp Product (ptr 0) (ptr 1)] (ptr 2)).
  reflexivity.
Defined.

Lemma derivative_follows_the_rules_witness :
  let h := [Constant 5; Variable_; TwoOp Sum (ptr 0) (ptr 1)] in
  exists q new,
    derivative left_to_right 2 (ptr 2) h = Done (q, h ++ new) /\
    deep_copy (2 * 2) (h ++ new) q =
      Done (Unique.make_unique (Unique.TwoOp Sum
              (Unique.make_unique (Unique.Constant 0))
              (Unique.make_unique (Unique.Constant 1)))) /\
    Unique.well_formed
      (Unique.make_unique (Unique.TwoOp Sum
         (Unique.make_unique (Unique.Constant 0))
         (Unique.make_unique (Unique.Constant 1)))) = true.
Proof.
  apply (derivative_follows_the_rules left_to_right 2
           [Constant 5; Variable_; TwoOp Sum (ptr 0) (ptr 1)] (ptr 2)
           (Unique.make_unique (Unique.TwoOp Sum
              (Unique.make_unique (Unique.Constant 5))
              (Unique.make_unique Unique.Variable_)))); reflexivity.
Defined.

Lemma printed_parentheses_are_nested_witness :
  Nesting.depth_after 0 "(4*(5+x))" = Some 0%nat /\
  forall n h q, deep_copy n h q = Done Unique.main_e ->
    text n h q = Done "(4*(5+x))"%string.
Proof.
  apply (printed_parentheses_are_nested Unique.main_e "(4*(5+x))");
    vm_compute; reflexivity.
Defined.

Lemma derivative_of_sums_is_constant_witness :
  let h := [Constant 5; Variable_; TwoOp Sum (ptr 0) (ptr 1)] in
  exists q new v,
    derivative right_to_left 2 (ptr 2) h = Done (q, h ++ new) /\
    forall x, evaluate (2 * 2) (h ++ new) q x = Done v.
Proof.
  apply (derivative_of_sums_is_constant right_to_left 2
           [Constant 5; Variable_; TwoOp Sum (ptr 0) (ptr 1)] (ptr 2)
           (Unique.make_unique (Unique.TwoOp Sum
              (Unique.make_unique (Unique.Constant 5))
              (Unique.make_unique Unique.Variable_)))); reflexivity.
Defined.

Lemma derivative_allocation_is_linear_witness :
  let h := [Constant 4; Variable_; TwoOp Product (ptr 0) (ptr 1)] in
  exists new,
    derivative left_to_right 2 (ptr 2) h =
      Done (ptr (pred (length (h ++ new))), h ++ new) /\
    length new = 5%nat /\
    (0 < length new)%nat /\
    (length new <= 3 * 3)%nat /\
    (length new <= 7)%nat.
Proof.
  apply (derivative_allocation_is_linear left_to_right 2
           [Constant 4; Variable_; TwoOp Product (ptr 0) (ptr 1)] (ptr 2)
           (Unique.make_unique (Unique.TwoOp Product
              (Unique.make_unique (Unique.Constant 4))
              (Unique.make_unique Unique.Variable_)))); reflexivity.
Defined.

Lemma heap_stays_ordered_witness :
  let h := [Constant 4; Variable_; TwoOp Product (ptr 0) (ptr 1)] in
  (exists t, deep_copy 4 h (ptr 2) = Done t) /\
  (forall ord n q h', derivative ord n (ptr 2) h = Done (q, h') ->
     h `prefix_of` h' /\ Order.ordered h' = true /\
     Order.below (length h') q = true) /\
  (forall ord e q h', build ord e h = Done (q, h') ->
     h `prefix_of` h' /\ Order.ordered h' = true /\
     Order.below (length h') q = true).
Proof.
  apply (heap_stays_ordered
           [Constant 4; Variable_; TwoOp Product (ptr 0) (ptr 1)] (ptr 2));
    reflexivity.
Defined.

Lemma null_anywhere_faults_witness :
  let h := [Variable_; TwoOp Sum (ptr 0) nullptr;
            TwoOp Product (ptr 1) (ptr 0)] in
  (forall x, evaluate 3 h (ptr 2) x = Fault) /\
  (forall os w, print 3 h (ptr 2) os w = Fault) /\
  (forall ord, derivative ord 3 (ptr 2) h = Fault).
Proof.
  apply (null_anywhere_faults 3
           [Variable_; TwoOp Sum (ptr 0) nullptr;
            TwoOp Product (ptr 1) (ptr 0)] (ptr 2)
           (Unique.make_unique (Unique.TwoOp Product
              (Unique.make_unique (Unique.TwoOp Sum
                 (Unique.make_unique Unique.Variable_) Unique.nullptr))
              (Unique.make_unique Unique.Variable_)))); reflexivity.
Defined.

Lemma Sum_refactoring_preserves_behaviour_witness :
  let e := r_TwoOp Sum r_Variable (r_TwoOp Sum (r_Constant 5) r_nullptr) in
  (forall x, Raw.arrow_evaluate (Raw.build e) x =
             Unique.arrow_evaluate (Unique.build e) x) /\
  (forall os w, Raw.arrow_print (Raw.build e) os w =
                Unique.arrow_print (Unique.build e) os w).
Proof.
  apply (Sum_refactoring_preserves_behaviour
           (r_TwoOp Sum r_Variable (r_TwoOp Sum (r_Constant 5) r_nullptr))).
  reflexivity.
Defined.

Lemma shared_raw_pointers_are_freed_twice_witness :
  let s : Store.store :=
    <[2 := Store.TwoOp Sum (Store.object_at 0) Store.nullptr]>
      (<[1 := Store.TwoOp Product Store.nullptr (Store.object_at 0)]>
         (<[0 := Store.Variable_]> ∅)) in
  let s1 : Store.store :=
    <[2 := Store.TwoOp Sum (Store.object_at 0) Store.nullptr]> ∅ in
  Store.delete 2 (Store.object_at 1) s = Done s1 /\
  Store.delete 2 (Store.object_at 2) s1 <> Done ∅.
Proof.
  split; [vm_compute; reflexivity|].
  apply (proj2 (proj2 shared_raw_pointers_are_freed_twice) 2 2
           (<[2 := Store.TwoOp Sum (Store.object_at 0) Store.nullptr]>
              (<[1 := Store.TwoOp Product Store.nullptr (Store.object_at 0)]>
                 (<[0 := Store.Variable_]> ∅)))
           1 2 0 Product Sum
           Store.nullptr (Store.object_at 0)
           (Store.object_at 0) Store.nullptr);
    [vm_compute; reflexivity | vm_compute; reflexivity
    | right; reflexivity | left; reflexivity | vm_compute; reflexivity].
Defined.

End Witnesses.
